(** * pgdbtemplate-pgx-v4: the connection provider and its pool registry

    A shallow embedding of [connection_provider.go] and [options.go].

    The provider keeps one pgxpool pool per database name in a map guarded by
    a [sync.RWMutex].  The pgx driver itself is not part of the package: it
    is an interface ([Environment]) whose answers the theorems quantify over.
    Pointers to pools are indices into a heap of pool objects, so that the
    registry and the handles returned by [Connect] alias the same pool. *)

From Stdlib Require Import ZArith String List Lia.
From stdpp Require Import gmap strings list fin_maps pretty.

Open Scope Z_scope.

(** ** Types owned by the driver and the Go runtime *)

(** [Ctx] is [context.Context], [Hook] a non-nil
    [AfterConnect] function, [PgConnConfig] what a
    [pgxpool.Config] holds besides the five fields this package writes, and
    [DS] the state of everything outside the process (server, network,
    process environment) that the driver's answers may depend on. *)
Class DriverTypes := {
  Ctx : Type;
  Hook : Type;
  PgConnConfig : Type;
  DS : Type
}.

(** A pointer to a [pgxpool.Pool]: the index of the pool object in the heap. *)
Abbreviation PoolPtr := nat (only parsing).

(** ** Errors *)

(** A Go [error] value.  [fmt.Errorf] with the verb [%w] wraps its
    argument; without it, it yields a plain message. *)
Inductive error :=
| errorString (s : string)
| wrapError (msg : string) (err : error).

Definition Error (e : error) : string :=
  match e with
  | errorString s => s
  | wrapError msg _ => msg
  end.


(** [fmt.Errorf(prefix + "%w", err)] *)
Definition Errorf_w (prefix : string) (err : error) : error :=
  wrapError (prefix +:+ Error err) err.

(** [fmt.Errorf("MaxConns must be >= 1, got %d", n)] *)
Definition Errorf_MaxConns (n : Z) : error :=
  errorString ("MaxConns must be >= 1, got " +:+ pretty n).

Definition parseStage : string := "failed to parse connection string: ".
Definition createStage : string := "failed to create connection pool: ".
Definition pingStage : string := "failed to ping database: ".

Section Model.
Context `{DriverTypes}.

(** ** pgxpool.Config *)

(** [MaxConns] and [MinConns] are [int32], the two durations are
    [time.Duration] (an [int64] of nanoseconds); the package only copies and
    compares them, so no arithmetic can overflow.  [AfterConnect] is a
    function value, [None] when nil. *)
Record Config := mkConfig {
  MaxConns : Z;
  MinConns : Z;
  MaxConnLifetime : Z;
  MaxConnIdleTime : Z;
  AfterConnect : option Hook;
  ConnConfig : option PgConnConfig
}.

(** The zero value [pgxpool.Config{}]. *)
Definition zeroConfig : Config := mkConfig 0 0 0 0 None None.

(** ** The provider and the handles *)

Record ConnectionProvider := mkProvider {
  connectionStringFunc : string -> string;
  poolConfig : Config;
  pools : gmap string PoolPtr
}.

(** The back-reference of a handle: a world holds one provider, so a
    non-nil pointer to a [ConnectionProvider] is that provider. *)
Inductive ProviderRef := thisProvider.

Record DatabaseConnection := mkConn {
  Pool : PoolPtr;
  provider : option ProviderRef;
  dbName : string
}.

(** What [Connect] builds on both of its success paths. *)
Definition trackedConn (pool : PoolPtr) (databaseName : string) : DatabaseConnection :=
  mkConn pool (Some thisProvider) databaseName.

(** ** The driver's heap and the calls made to it *)

(** A pool object: the configuration it was built from and whether it has
    been closed.  [pgxpool.Pool.Close] runs under a [sync.Once]: the first call
    releases the connections, later calls do nothing. *)
Record PoolObj := mkPool {
  pool_config : Config;
  closed : bool
}.

Inductive Event :=
| EvConnectionString (databaseName : string)
| EvParseConfig (connString : string)
| EvConnectConfig (ctx : Ctx) (config : Config)
| EvPing (ctx : Ctx) (pool : PoolPtr)
| EvPoolClose (pool : PoolPtr).

(** Calls that construct a pool or reach the network. *)
Definition isNetworkEvent (e : Event) : bool :=
  match e with
  | EvConnectConfig _ _ | EvPing _ _ => true
  | _ => false
  end.

(** The provider, the pool objects, the outside world and the log of calls
    (most recent first). *)
Record World := mkWorld {
  prov : ConnectionProvider;
  heap : list PoolObj;
  env : DS;
  trace : list Event
}.

(** The driver and the runtime.  Each driver call may change the outside
    world and may answer differently from one call to the next.
    [rangeOrder] is the order in which a [for ... range] loop visits a map,
    which Go leaves unspecified: some permutation of the entries. *)
Class Environment := {
  ParseConfig : DS -> string -> (Config + error) * DS;
  ConnectConfig : DS -> Ctx -> Config -> option error * DS;
  Ping : DS -> Ctx -> PoolPtr -> option error * DS;
  rangeOrder : DS -> gmap string PoolPtr -> list (string * PoolPtr);
  rangeOrder_perm : forall ds m, rangeOrder ds m ≡ₚ map_to_list m
}.

Context `{Environment}.

Definition setPools (m : gmap string PoolPtr) (w : World) : World :=
  mkWorld (mkProvider (connectionStringFunc (prov w)) (poolConfig (prov w)) m)
          (heap w) (env w) (trace w).

Definition closePoolObj (o : PoolObj) : PoolObj :=
  mkPool (pool_config o) true.

(** [pool.Close()] *)
Definition PoolClose (pool : PoolPtr) (w : World) : World :=
  mkWorld (prov w) (alter closePoolObj pool (heap w)) (env w)
          (EvPoolClose pool :: trace w).

(** ** options.go *)

Definition ConnectionOption := ConnectionProvider -> ConnectionProvider.

Definition setPoolConfig (c : Config) (p : ConnectionProvider) : ConnectionProvider :=
  mkProvider (connectionStringFunc p) c (pools p).

Definition WithPoolConfig (config : Config) : ConnectionOption :=
  fun p => setPoolConfig config p.

Definition WithMaxConns (maxConns : Z) : ConnectionOption :=
  fun p => let c := poolConfig p in
    setPoolConfig (mkConfig maxConns (MinConns c) (MaxConnLifetime c)
                            (MaxConnIdleTime c) (AfterConnect c) (ConnConfig c)) p.

Definition WithMinConns (minConns : Z) : ConnectionOption :=
  fun p => let c := poolConfig p in
    setPoolConfig (mkConfig (MaxConns c) minConns (MaxConnLifetime c)
                            (MaxConnIdleTime c) (AfterConnect c) (ConnConfig c)) p.

Definition WithMaxConnLifetime (d : Z) : ConnectionOption :=
  fun p => let c := poolConfig p in
    setPoolConfig (mkConfig (MaxConns c) (MinConns c) d
                            (MaxConnIdleTime c) (AfterConnect c) (ConnConfig c)) p.

Definition WithMaxConnIdleTime (d : Z) : ConnectionOption :=
  fun p => let c := poolConfig p in
    setPoolConfig (mkConfig (MaxConns c) (MinConns c) (MaxConnLifetime c)
                            d (AfterConnect c) (ConnConfig c)) p.

Definition WithAfterConnect (afterConnect : option Hook) : ConnectionOption :=
  fun p => let c := poolConfig p in
    setPoolConfig (mkConfig (MaxConns c) (MinConns c) (MaxConnLifetime c)
                            (MaxConnIdleTime c) afterConnect (ConnConfig c)) p.

(** ** connection_provider.go *)

Definition NewConnectionProvider (connectionStringFunc : string -> string)
    (opts : list ConnectionOption) : ConnectionProvider :=
  foldl (fun provider opt => opt provider)
        (mkProvider connectionStringFunc zeroConfig ∅) opts.

(** "Apply pool configuration settings if provided": the provider's
    [poolConfig] written over the parsed [config]. *)
Definition applyPoolConfig (pc config : Config) : Config + error :=
  if Z.eqb (MaxConns pc) 0 then
    inl (mkConfig (MaxConns config) (MinConns pc) (MaxConnLifetime pc)
                  (MaxConnIdleTime pc) (AfterConnect pc) (ConnConfig config))
  else if Z.ltb (MaxConns pc) 1 then
    inr (Errorf_MaxConns (MaxConns pc))
  else
    inl (mkConfig (MaxConns pc) (MinConns pc) (MaxConnLifetime pc)
                  (MaxConnIdleTime pc) (AfterConnect pc) (ConnConfig config)).

(** The two values [Connect] returns. *)
Definition ConnectResult : Type := option DatabaseConnection * option error.

(** [Connect] from [p.mu.Lock()] on: the second look at the map and the
    construction of the pool. *)
Definition connectLocked (ctx : Ctx) (databaseName : string) (w : World)
    : ConnectResult * World :=
  match pools (prov w) !! databaseName with
  | Some pool => ((Some (trackedConn pool databaseName), None), w)
  | None =>
    let connString := connectionStringFunc (prov w) databaseName in
    let tr1 := EvParseConfig connString :: EvConnectionString databaseName :: trace w in
    match ParseConfig (env w) connString with
    | (inr err, ds1) =>
        ((None, Some (Errorf_w parseStage err)), mkWorld (prov w) (heap w) ds1 tr1)
    | (inl parsed, ds1) =>
      match applyPoolConfig (poolConfig (prov w)) parsed with
      | inr err => ((None, Some err), mkWorld (prov w) (heap w) ds1 tr1)
      | inl config =>
        let tr2 := EvConnectConfig ctx config :: tr1 in
        match ConnectConfig ds1 ctx config with
        | (Some err, ds2) =>
            ((None, Some (Errorf_w createStage err)), mkWorld (prov w) (heap w) ds2 tr2)
        | (None, ds2) =>
          let pool := length (heap w) in
          let heap2 := heap w ++ [mkPool config false] in
          let tr3 := EvPing ctx pool :: tr2 in
          match Ping ds2 ctx pool with
          | (Some err, ds3) =>
              ((None, Some (Errorf_w pingStage err)),
               PoolClose pool (mkWorld (prov w) heap2 ds3 tr3))
          | (None, ds3) =>
              ((Some (trackedConn pool databaseName), None),
               setPools (<[databaseName := pool]> (pools (prov w)))
                        (mkWorld (prov w) heap2 ds3 tr3))
          end
        end
      end
    end
  end.

(** The exits of [connectLocked] past the second look-up, as a relation
    between the world before and the result: what the driver answered, what
    is returned, what is left behind.  [connectLocked_outcome] shows that
    the function takes exactly these exits. *)
Inductive Outcome (ctx : Ctx) (databaseName : string) (w : World) : ConnectResult -> World -> Prop :=
| OutParse err ds1 :
    ParseConfig (env w) (connectionStringFunc (prov w) databaseName) = (inr err, ds1) ->
    Outcome ctx databaseName w
      (None, Some (Errorf_w parseStage err))
      (mkWorld (prov w) (heap w) ds1
         (EvParseConfig (connectionStringFunc (prov w) databaseName)
            :: EvConnectionString databaseName :: trace w))
| OutValidate parsed ds1 :
    ParseConfig (env w) (connectionStringFunc (prov w) databaseName) = (inl parsed, ds1) ->
    MaxConns (poolConfig (prov w)) <> 0 ->
    MaxConns (poolConfig (prov w)) < 1 ->
    Outcome ctx databaseName w
      (None, Some (Errorf_MaxConns (MaxConns (poolConfig (prov w)))))
      (mkWorld (prov w) (heap w) ds1
         (EvParseConfig (connectionStringFunc (prov w) databaseName)
            :: EvConnectionString databaseName :: trace w))
| OutCreate parsed ds1 config err ds2 :
    ParseConfig (env w) (connectionStringFunc (prov w) databaseName) = (inl parsed, ds1) ->
    applyPoolConfig (poolConfig (prov w)) parsed = inl config ->
    ConnectConfig ds1 ctx config = (Some err, ds2) ->
    Outcome ctx databaseName w
      (None, Some (Errorf_w createStage err))
      (mkWorld (prov w) (heap w) ds2
         (EvConnectConfig ctx config
            :: EvParseConfig (connectionStringFunc (prov w) databaseName)
            :: EvConnectionString databaseName :: trace w))
| OutPing parsed ds1 config ds2 err ds3 :
    ParseConfig (env w) (connectionStringFunc (prov w) databaseName) = (inl parsed, ds1) ->
    applyPoolConfig (poolConfig (prov w)) parsed = inl config ->
    ConnectConfig ds1 ctx config = (None, ds2) ->
    Ping ds2 ctx (length (heap w)) = (Some err, ds3) ->
    Outcome ctx databaseName w
      (None, Some (Errorf_w pingStage err))
      (mkWorld (prov w) (heap w ++ [mkPool config true]) ds3
         (EvPoolClose (length (heap w))
            :: EvPing ctx (length (heap w))
            :: EvConnectConfig ctx config
            :: EvParseConfig (connectionStringFunc (prov w) databaseName)
            :: EvConnectionString databaseName :: trace w))
| OutSuccess parsed ds1 config ds2 ds3 :
    ParseConfig (env w) (connectionStringFunc (prov w) databaseName) = (inl parsed, ds1) ->
    applyPoolConfig (poolConfig (prov w)) parsed = inl config ->
    ConnectConfig ds1 ctx config = (None, ds2) ->
    Ping ds2 ctx (length (heap w)) = (None, ds3) ->
    Outcome ctx databaseName w
      (Some (trackedConn (length (heap w)) databaseName), None)
      (mkWorld (mkProvider (connectionStringFunc (prov w)) (poolConfig (prov w))
                           (<[databaseName := length (heap w)]> (pools (prov w))))
         (heap w ++ [mkPool config false]) ds3
         (EvPing ctx (length (heap w))
            :: EvConnectConfig ctx config
            :: EvParseConfig (connectionStringFunc (prov w) databaseName)
            :: EvConnectionString databaseName :: trace w)).

(** [Connect] run alone: the look-up under the read lock, then
    [connectLocked]. *)
Definition Connect (ctx : Ctx) (databaseName : string) (w : World)
    : ConnectResult * World :=
  match pools (prov w) !! databaseName with
  | Some pool => ((Some (trackedConn pool databaseName), None), w)
  | None => connectLocked ctx databaseName w
  end.

(** The loop [for _, pool := range p.pools { pool.Close() }] over the
    entries in the order [l]. *)
Definition closeAll (l : list (string * PoolPtr)) (w : World) : World :=
  foldl (fun w' kv => PoolClose (snd kv) w') w l.

(** [ConnectionProvider.Close]: close every pool, start a new map. *)
Definition ConnectionProvider_Close (w : World) : World :=
  setPools ∅ (closeAll (rangeOrder (env w) (pools (prov w))) w).

(** [DatabaseConnection.Close]; the value returned is its [error]. *)
Definition DatabaseConnection_Close (c : DatabaseConnection) (w : World)
    : option error * World :=
  match provider c with
  | None => (None, PoolClose (Pool c) w)
  | Some _ =>
      let w1 := PoolClose (Pool c) w in
      (None, setPools (delete (dbName c) (pools (prov w1))) w1)
  end.

(** ** The options of options.go as data *)

(** One constructor per exported option, so that a sequence of options can
    be inspected as well as applied. *)
Inductive OptionCall :=
| CallWithPoolConfig (config : Config)
| CallWithMaxConns (maxConns : Z)
| CallWithMinConns (minConns : Z)
| CallWithMaxConnLifetime (d : Z)
| CallWithMaxConnIdleTime (d : Z)
| CallWithAfterConnect (afterConnect : option Hook).

Definition toOption (o : OptionCall) : ConnectionOption :=
  match o with
  | CallWithPoolConfig config => WithPoolConfig config
  | CallWithMaxConns n => WithMaxConns n
  | CallWithMinConns n => WithMinConns n
  | CallWithMaxConnLifetime d => WithMaxConnLifetime d
  | CallWithMaxConnIdleTime d => WithMaxConnIdleTime d
  | CallWithAfterConnect h => WithAfterConnect h
  end.

(** What an option writes into each field, if anything.  [WithPoolConfig]
    replaces the whole configuration, hence writes every field. *)
Definition setsMaxConns (o : OptionCall) : option Z :=
  match o with
  | CallWithPoolConfig c => Some (MaxConns c)
  | CallWithMaxConns n => Some n
  | _ => None
  end.

Definition setsMinConns (o : OptionCall) : option Z :=
  match o with
  | CallWithPoolConfig c => Some (MinConns c)
  | CallWithMinConns n => Some n
  | _ => None
  end.

Definition setsMaxConnLifetime (o : OptionCall) : option Z :=
  match o with
  | CallWithPoolConfig c => Some (MaxConnLifetime c)
  | CallWithMaxConnLifetime d => Some d
  | _ => None
  end.

Definition setsMaxConnIdleTime (o : OptionCall) : option Z :=
  match o with
  | CallWithPoolConfig c => Some (MaxConnIdleTime c)
  | CallWithMaxConnIdleTime d => Some d
  | _ => None
  end.

Definition setsAfterConnect (o : OptionCall) : option (option Hook) :=
  match o with
  | CallWithPoolConfig c => Some (AfterConnect c)
  | CallWithAfterConnect h => Some h
  | _ => None
  end.

(** The value written by the last option of [os] that writes the field
    described by [sets]. *)
Definition lastSet {A} (sets : OptionCall -> option A) (os : list OptionCall) : option A :=
  last (omap sets os).

(** ** Provider states the exported API can produce *)

Definition setEnv (ds : DS) (w : World) : World :=
  mkWorld (prov w) (heap w) ds (trace w).

Definition issued (r : ConnectResult) (hs : list DatabaseConnection) : list DatabaseConnection :=
  match fst r with
  | Some c => c :: hs
  | None => hs
  end.

(** [Reachable w hs]: [w] is a world produced by creating a provider with
    [NewConnectionProvider] and then calling [Connect], [Close] on handles
    that [Connect] returned, and the provider's [Close], in any order, while
    the outside world changes at will; [hs] are the handles returned so far.
    Every such operation works on the map under the lock, so concurrent
    callers produce the same worlds as some order of the calls. *)
Inductive Reachable : World -> list DatabaseConnection -> Prop :=
| reach_new fn os h ds :
    Reachable (mkWorld (NewConnectionProvider fn (map toOption os)) h ds []) []
| reach_Connect w hs ctx databaseName :
    Reachable w hs ->
    Reachable (snd (Connect ctx databaseName w))
              (issued (fst (Connect ctx databaseName w)) hs)
| reach_conn_Close w hs c :
    Reachable w hs -> In c hs ->
    Reachable (snd (DatabaseConnection_Close c w)) hs
| reach_provider_Close w hs :
    Reachable w hs -> Reachable (ConnectionProvider_Close w) hs
| reach_env w hs ds :
    Reachable w hs -> Reachable (setEnv ds w) hs.

(** ** Invariants of the reachable states *)

(** Every registered pool exists and is open, and no pool is registered
    under two names. *)
Definition registryOK (w : World) : Prop :=
  (forall databaseName pool,
      pools (prov w) !! databaseName = Some pool ->
      exists o, heap w !! pool = Some o /\ closed o = false) /\
  (forall name1 name2 pool,
      pools (prov w) !! name1 = Some pool ->
      pools (prov w) !! name2 = Some pool -> name1 = name2).

(** A handle returned by [Connect]: it refers to the provider, its pool
    exists, and that pool is registered, if at all, under the handle's name. *)
Definition handleOK (w : World) (c : DatabaseConnection) : Prop :=
  provider c = Some thisProvider /\
  (Pool c < length (heap w))%nat /\
  (forall databaseName,
      pools (prov w) !! databaseName = Some (Pool c) -> databaseName = dbName c).

(** [n] calls of [Close] on the same handle in a row: the errors returned
    and the world left. *)
Fixpoint closeTimes (n : nat) (c : DatabaseConnection) (w : World)
    : list (option error) * World :=
  match n with
  | O => ([], w)
  | S n' =>
      let r := DatabaseConnection_Close c w in
      let rs := closeTimes n' c (snd r) in
      (fst r :: fst rs, snd rs)
  end.

(** The pools that a provider-wide [Close] closes, in the order of its
    loop. *)
Definition closedByClose (w : World) : list PoolPtr :=
  map snd (rangeOrder (env w) (pools (prov w))).

(** ** Concurrent callers of Connect *)

(** Where a goroutine stands inside [Connect]. *)
Inductive PC :=
| PcStart                      (* before p.mu.RLock() *)
| PcRLocked                    (* holds the read lock, before the look-up *)
| PcWantLock                   (* found nothing, read lock released, before p.mu.Lock() *)
| PcLocked                     (* holds the write lock *)
| PcDone (r : ConnectResult).  (* returned r *)

Record Caller := mkCaller {
  c_ctx : Ctx;
  c_name : string;
  c_pc : PC
}.

(** The world, the state of [p.mu] (how many hold the read lock, whether
    the write lock is held) and the goroutines. *)
Record System := mkSystem {
  world : World;
  readers : nat;
  writer : bool;
  callers : list Caller
}.

Definition setPc (pc : PC) (c : Caller) : Caller :=
  mkCaller (c_ctx c) (c_name c) pc.

(** One step of goroutine [i], [None] when it is blocked on the mutex or
    has returned.  [RLock] waits for the write lock to be free; [Lock] waits
    for the write lock and all read locks to be free.  The look-up and the
    [RUnlock] after it are one step: nobody can write the map in between.
    All of [connectLocked] and the deferred [Unlock] are one step: every
    other goroutine that touches the map is blocked meanwhile. *)
Definition stepCaller (i : nat) (s : System) : option System :=
  match callers s !! i with
  | None => None
  | Some c =>
    match c_pc c with
    | PcStart =>
        if writer s then None
        else Some (mkSystem (world s) (S (readers s)) (writer s)
                            (<[i := setPc PcRLocked c]> (callers s)))
    | PcRLocked =>
        let pc' :=
          match pools (prov (world s)) !! c_name c with
          | Some pool => PcDone (Some (trackedConn pool (c_name c)), None)
          | None => PcWantLock
          end in
        Some (mkSystem (world s) (Nat.pred (readers s)) (writer s)
                       (<[i := setPc pc' c]> (callers s)))
    | PcWantLock =>
        if writer s then None
        else if Nat.eqb (readers s) 0 then
          Some (mkSystem (world s) (readers s) true
                         (<[i := setPc PcLocked c]> (callers s)))
        else None
    | PcLocked =>
        let rw := connectLocked (c_ctx c) (c_name c) (world s) in
        Some (mkSystem (snd rw) (readers s) false
                       (<[i := setPc (PcDone (fst rw)) c]> (callers s)))
    | PcDone _ => None
    end
  end.

(** Run the goroutines in the order given by a schedule. *)
Fixpoint run (sched : list nat) (s : System) : option System :=
  match sched with
  | [] => Some s
  | i :: sched' =>
    match stepCaller i s with
    | Some s' => run sched' s'
    | None => None
    end
  end.


Definition result (c : Caller) : option ConnectResult :=
  match c_pc c with
  | PcDone r => Some r
  | _ => None
  end.

Definition allReturned (s : System) : Prop :=
  Forall (fun c => is_Some (result c)) (callers s).

Definition blocked (s : System) : Prop :=
  forall i, stepCaller i s = None.

(** *** Invariants of the concurrent system *)

(** How many steps a goroutine has left at most. *)
Definition remaining (pc : PC) : nat :=
  match pc with
  | PcStart => 4
  | PcRLocked => 3
  | PcWantLock => 2
  | PcLocked => 1
  | PcDone _ => 0
  end.

Definition holdsRead (c : Caller) : nat :=
  match c_pc c with PcRLocked => 1 | _ => 0 end.

Definition holdsWrite (c : Caller) : nat :=
  match c_pc c with PcLocked => 1 | _ => 0 end.

Definition total (f : Caller -> nat) (l : list Caller) : nat :=
  foldr (fun c n => (f c + n)%nat) 0%nat l.

(** The mutex counts the goroutines inside it. *)
Definition lockOK (s : System) : Prop :=
  readers s = total holdsRead (callers s) /\
  (if writer s then 1%nat else 0%nat) = total holdsWrite (callers s) /\
  (writer s = true -> readers s = 0%nat).




End Model.

(** ** A concrete driver, for running the model *)

(** Three kinds of context: one that stays live, one that is already
    cancelled (pool construction fails), one that expires after the pool is
    built (the ping fails). *)
Inductive SampleCtx := ctxBackground | ctxCancelled | ctxExpiring.

Definition sampleTypes : DriverTypes :=
  {| Ctx := SampleCtx; Hook := nat; PgConnConfig := string; DS := nat |}.

(** Connection strings must start with [postgres://]; the parsed
    configuration carries the driver's defaults.  The outside world counts
    the calls made to the driver. *)
Definition sampleParseConfig (ds : nat) (connString : string)
    : (@Config sampleTypes + error) * nat :=
  if String.prefix "postgres://" connString
  then (inl (@mkConfig sampleTypes 4 0 3600 1800 None (Some connString)), S ds)
  else (inr (errorString "cannot parse connection string"), S ds).

Definition sampleConnectConfig (ds : nat) (ctx : SampleCtx) (config : @Config sampleTypes)
    : option error * nat :=
  match ctx with
  | ctxCancelled => (Some (errorString "context canceled"), S ds)
  | _ => (None, S ds)
  end.

Definition samplePing (ds : nat) (ctx : SampleCtx) (pool : PoolPtr)
    : option error * nat :=
  match ctx with
  | ctxBackground => (None, S ds)
  | _ => (Some (errorString "context deadline exceeded"), S ds)
  end.

Definition sampleEnv : @Environment sampleTypes :=
  @Build_Environment sampleTypes
    sampleParseConfig sampleConnectConfig samplePing
    (fun _ m => map_to_list m)
    (fun _ m => reflexivity (map_to_list m)).

Definition sampleConnString (dbName : string) : string :=
  ("postgres://localhost/" +:+ dbName)%string.

Definition badConnString (dbName : string) : string :=
  "invalid://connection/string".

(** Modelled from the spec: how the driver, which is not part of this
    package, reads a duration field of the configuration it is given: zero
    means no limit, any other value is the limit. *)
Definition durationLimit (d : Z) : option Z :=
  if Z.eqb d 0 then None else Some d.

(** ** A driver that reads the pool size from the connection string *)

(** The pool size the sample drivers choose when nothing asks for another. *)
Definition sampleDefaultMaxConns : Z := 4.

Fixpoint readDigits (s : string) (acc : Z) : Z :=
  match s with
  | String c rest =>
      let n := Z.of_nat (Ascii.nat_of_ascii c) in
      if (48 <=? n) && (n <=? 57)
      then readDigits rest (10 * acc + (n - 48))
      else acc
  | EmptyString => acc
  end.

(** The value of a [pool_max_conns=N] parameter of the connection string,
    the default when there is none. *)
Definition poolMaxConnsOf (connString : string) : Z :=
  match String.index 0 "pool_max_conns=" connString with
  | Some i =>
      readDigits (String.substring (i + 15)%nat (String.length connString) connString) 0
  | None => sampleDefaultMaxConns
  end.

(** As [sampleParseConfig], except that the connection string may set
    [MaxConns]. *)
Definition paramParseConfig (ds : nat) (connString : string)
    : (@Config sampleTypes + error) * nat :=
  if String.prefix "postgres://" connString
  then (inl (@mkConfig sampleTypes (poolMaxConnsOf connString) 0 3600 1800 None
               (Some connString)), S ds)
  else (inr (errorString "cannot parse connection string"), S ds).

Definition paramEnv : @Environment sampleTypes :=
  @Build_Environment sampleTypes
    paramParseConfig sampleConnectConfig samplePing
    (fun _ m => map_to_list m)
    (fun _ m => reflexivity (map_to_list m)).

Definition paramConnString (dbName : string) : string :=
  ("postgres://localhost/" +:+ dbName +:+ "?pool_max_conns=7")%string.

(** A fresh provider, before any call. *)
Definition sampleWorld (fn : string -> string) (os : list (@OptionCall sampleTypes))
    : @World sampleTypes :=
  @mkWorld sampleTypes (NewConnectionProvider fn (map toOption os)) [] 0%nat [].

(** The world after one successful [Connect] on a fresh provider, and the
    handle that call returns. *)
Definition sampleConnected : @World sampleTypes :=
  snd (@Connect sampleTypes sampleEnv ctxBackground "postgres"
         (sampleWorld sampleConnString [])).

Definition sampleConn : DatabaseConnection :=
  trackedConn 0%nat "postgres".




(** ** Callers of Connect for any names *)

Section Requests.
Context `{DriverTypes}.

(** Goroutines about to call [Connect], each with its own context and
    database name. *)
Definition initSystemOf (w : World) (reqs : list (Ctx * string)) : System :=
  mkSystem w 0%nat false (map (fun r => mkCaller (fst r) (snd r) PcStart) reqs).

(** The calls one [Connect] may add to the log, most recent first: nothing
    when the pool is found, otherwise the builder and [ParseConfig], then
    [ConnectConfig], then [Ping], then the pool's [Close] after a failed
    ping; each at most once. *)
Definition callsOfConnect (ctx : Ctx) (databaseName connString : string)
    (pool : nat) (evs : list Event) : Prop :=
  evs = [] \/
  evs = [EvParseConfig connString; EvConnectionString databaseName] \/
  (exists config,
     evs = [EvConnectConfig ctx config; EvParseConfig connString;
            EvConnectionString databaseName]) \/
  (exists config,
     evs = [EvPing ctx pool; EvConnectConfig ctx config; EvParseConfig connString;
            EvConnectionString databaseName]) \/
  (exists config,
     evs = [EvPoolClose pool; EvPing ctx pool; EvConnectConfig ctx config;
            EvParseConfig connString; EvConnectionString databaseName]).

(** The registry only gains entries, and whoever holds a handle holds the
    pool registered under the name asked for. *)
Definition handlesInv (w0 : World) (s : System) : Prop :=
  (forall name pool, pools (prov w0) !! name = Some pool ->
                     pools (prov (world s)) !! name = Some pool) /\
  Forall (fun c =>
            (forall h e, result c = Some (Some h, e) ->
               e = None /\ h = trackedConn (Pool h) (c_name c) /\
               pools (prov (world s)) !! c_name c = Some (Pool h)) /\
            (forall e, result c = Some (None, e) -> e <> None))
         (callers s).

End Requests.

(** Two goroutines asking for different databases and one asking for the
    first of them again. *)
Definition sampleRequests : list (SampleCtx * string) :=
  [(ctxBackground, "app"); (ctxBackground, "audit"); (ctxBackground, "app")].

Definition sampleMixedRace : @System sampleTypes :=
  @initSystemOf sampleTypes (sampleWorld sampleConnString []) sampleRequests.

Definition mixedSchedule : list nat := [0; 1; 2; 0; 1; 2; 1; 1; 0; 0; 2; 2]%nat.

Definition sampleMixedEnd : @System sampleTypes :=
  default sampleMixedRace (@run sampleTypes sampleEnv mixedSchedule sampleMixedRace).

(** A handle made by hand around the pool of [sampleConn], without
    provider. *)
Definition sampleUntracked : DatabaseConnection := mkConn 0%nat None "".

(** The world after [sampleConn] has been closed, a second [Connect] has
    registered a new pool, and [sampleConn] has been closed once more. *)
Definition sampleReconnected : @World sampleTypes :=
  snd (@Connect sampleTypes sampleEnv ctxBackground "postgres"
         (snd (@DatabaseConnection_Close sampleTypes sampleConn sampleConnected))).

(** * Properties *)

Section Sequential.
Context {DT : DriverTypes} {E : Environment}.

Implicit Types (w : World) (c : DatabaseConnection) (ctx : Ctx)
               (databaseName : string) (e : error).

(** ** Elementary facts *)

Lemma Connect_connectLocked ctx databaseName w :
  Connect ctx databaseName w = connectLocked ctx databaseName w.
Proof.
  unfold Connect, connectLocked.
  destruct (pools (prov w) !! databaseName); reflexivity.
Qed.

Lemma Connect_registered ctx databaseName w pool :
  pools (prov w) !! databaseName = Some pool ->
  Connect ctx databaseName w = ((Some (trackedConn pool databaseName), None), w).
Proof. intros Hreg. unfold Connect. rewrite Hreg. reflexivity. Qed.

Lemma applyPoolConfig_ok pc parsed config :
  applyPoolConfig pc parsed = inl config ->
  (MaxConns pc = 0 \/ 1 <= MaxConns pc) /\
  config = mkConfig (if Z.eqb (MaxConns pc) 0 then MaxConns parsed else MaxConns pc)
                    (MinConns pc) (MaxConnLifetime pc) (MaxConnIdleTime pc)
                    (AfterConnect pc) (ConnConfig parsed).
Proof.
  unfold applyPoolConfig.
  destruct (Z.eqb_spec (MaxConns pc) 0) as [Hz | Hnz].
  - intros [= <-]. auto.
  - destruct (Z.ltb_spec (MaxConns pc) 1); intros [= <-].
    split; [right; lia | reflexivity].
Qed.

Lemma applyPoolConfig_err pc parsed e :
  applyPoolConfig pc parsed = inr e ->
  MaxConns pc <> 0 /\ MaxConns pc < 1 /\ e = Errorf_MaxConns (MaxConns pc).
Proof.
  unfold applyPoolConfig.
  destruct (Z.eqb_spec (MaxConns pc) 0); [discriminate |].
  destruct (Z.ltb_spec (MaxConns pc) 1); [| discriminate].
  intros [= <-]. auto.
Qed.

Lemma lookup_alter_closed (h : list PoolObj) pool o :
  h !! pool = Some o -> alter closePoolObj pool h !! pool = Some (closePoolObj o).
Proof. intros Ho. rewrite list_lookup_alter_eq, Ho. reflexivity. Qed.

Lemma alter_close_last (h : list PoolObj) config :
  alter closePoolObj (length h) (h ++ [mkPool config false]) = h ++ [mkPool config true].
Proof.
  induction h as [| o h IH]; simpl; [reflexivity |].
  f_equal. exact IH.
Qed.

Lemma connectLocked_outcome ctx databaseName w :
  pools (prov w) !! databaseName = None ->
  Outcome ctx databaseName w (fst (connectLocked ctx databaseName w))
                             (snd (connectLocked ctx databaseName w)).
Proof.
  intros Habs. unfold connectLocked. rewrite Habs.
  destruct (ParseConfig (env w) (connectionStringFunc (prov w) databaseName))
    as [[parsed | err] ds1] eqn:Hparse; simpl.
  2: { eapply OutParse; eassumption. }
  destruct (applyPoolConfig (poolConfig (prov w)) parsed) as [config | err] eqn:Happly; simpl.
  2: { apply applyPoolConfig_err in Happly as (Hnz & Hlt & ->).
       eapply OutValidate; eassumption. }
  destruct (ConnectConfig ds1 ctx config) as [[err |] ds2] eqn:Hconn; simpl.
  { eapply OutCreate; eassumption. }
  destruct (Ping ds2 ctx (length (heap w))) as [[err |] ds3] eqn:Hping; simpl.
  - unfold PoolClose; simpl. rewrite alter_close_last.
    eapply OutPing; eassumption.
  - unfold setPools; simpl. eapply OutSuccess; eassumption.
Qed.

Lemma Connect_outcome ctx databaseName w :
  pools (prov w) !! databaseName = None ->
  Outcome ctx databaseName w (fst (Connect ctx databaseName w))
                             (snd (Connect ctx databaseName w)).
Proof. rewrite Connect_connectLocked. apply connectLocked_outcome. Qed.

(** A successful [Connect] leaves the name registered with the pool of the
    handle it returned. *)
Lemma Connect_success_registered ctx databaseName w c w' :
  Connect ctx databaseName w = ((Some c, None), w') ->
  c = trackedConn (Pool c) databaseName /\
  pools (prov w') !! databaseName = Some (Pool c).
Proof.
  intros Hc.
  destruct (pools (prov w) !! databaseName) as [pool |] eqn:Hreg.
  - rewrite (Connect_registered _ _ _ _ Hreg) in Hc.
    injection Hc as <- <-. auto.
  - pose proof (Connect_outcome ctx databaseName w Hreg) as Hout.
    rewrite Hc in Hout. simpl in Hout.
    inversion Hout; subst; simpl.
    split; [reflexivity | apply lookup_insert_eq].
Qed.

(** ** Reuse of a registered pool *)

(** C2. In every provider state in which a pool is registered under
    [databaseName], [Connect] returns a handle bound to that pool, with the
    provider as back-reference, and leaves the world as it was: no pool
    object is added, the outside world is not consulted, and the log of
    calls gains nothing (neither the connection-string builder, nor
    [ParseConfig], nor [ConnectConfig] is invoked).  In particular, when the
    state is the one left by a successful [Connect] for that name, the pool
    reused is the pool of the handle that first call returned. *)
Theorem Connect_reuses_registered_pool ctx databaseName w pool :
  pools (prov w) !! databaseName = Some pool ->
  Connect ctx databaseName w
    = ((Some (mkConn pool (Some thisProvider) databaseName), None), w) /\
  (forall ctx0 w0 c0,
      Connect ctx0 databaseName w0 = ((Some c0, None), w) ->
      Pool c0 = pool /\
      Connect ctx databaseName w = ((Some c0, None), w)).
Proof.
  intros Hreg. split.
  - apply Connect_registered, Hreg.
  - intros ctx0 w0 c0 Hfirst.
    apply Connect_success_registered in Hfirst as [Hc0 Hreg0].
    rewrite Hreg in Hreg0. injection Hreg0 as ->.
    split; [reflexivity |].
    rewrite Hc0. apply Connect_registered, Hreg.
Qed.

(** ** Failures of Connect *)

Lemma applyPoolConfig_rejects pc parsed :
  MaxConns pc <> 0 -> MaxConns pc < 1 ->
  applyPoolConfig pc parsed = inr (Errorf_MaxConns (MaxConns pc)).
Proof.
  intros Hnz Hlt. unfold applyPoolConfig.
  destruct (Z.eqb_spec (MaxConns pc) 0); [contradiction |].
  destruct (Z.ltb_spec (MaxConns pc) 1); [reflexivity | lia].
Qed.

(** What [Connect] returns and leaves behind for an unregistered name,
    stage by stage, from what the driver answers. *)
Lemma Connect_by_stage ctx databaseName w :
  pools (prov w) !! databaseName = None ->
  let connString := connectionStringFunc (prov w) databaseName in
  let tr1 := EvParseConfig connString :: EvConnectionString databaseName :: trace w in
  (forall err ds1,
      ParseConfig (env w) connString = (inr err, ds1) ->
      Connect ctx databaseName w
      = ((None, Some (Errorf_w parseStage err)), mkWorld (prov w) (heap w) ds1 tr1)) /\
  (forall parsed ds1,
      ParseConfig (env w) connString = (inl parsed, ds1) ->
      MaxConns (poolConfig (prov w)) <> 0 -> MaxConns (poolConfig (prov w)) < 1 ->
      Connect ctx databaseName w
      = ((None, Some (Errorf_MaxConns (MaxConns (poolConfig (prov w))))),
         mkWorld (prov w) (heap w) ds1 tr1)) /\
  (forall parsed ds1 config err ds2,
      ParseConfig (env w) connString = (inl parsed, ds1) ->
      applyPoolConfig (poolConfig (prov w)) parsed = inl config ->
      ConnectConfig ds1 ctx config = (Some err, ds2) ->
      Connect ctx databaseName w
      = ((None, Some (Errorf_w createStage err)),
         mkWorld (prov w) (heap w) ds2 (EvConnectConfig ctx config :: tr1))) /\
  (forall parsed ds1 config ds2 err ds3,
      ParseConfig (env w) connString = (inl parsed, ds1) ->
      applyPoolConfig (poolConfig (prov w)) parsed = inl config ->
      ConnectConfig ds1 ctx config = (None, ds2) ->
      Ping ds2 ctx (length (heap w)) = (Some err, ds3) ->
      Connect ctx databaseName w
      = ((None, Some (Errorf_w pingStage err)),
         mkWorld (prov w) (heap w ++ [mkPool config true]) ds3
                 (EvPoolClose (length (heap w)) :: EvPing ctx (length (heap w))
                    :: EvConnectConfig ctx config :: tr1))) /\
  (forall parsed ds1 config ds2 ds3,
      ParseConfig (env w) connString = (inl parsed, ds1) ->
      applyPoolConfig (poolConfig (prov w)) parsed = inl config ->
      ConnectConfig ds1 ctx config = (None, ds2) ->
      Ping ds2 ctx (length (heap w)) = (None, ds3) ->
      Connect ctx databaseName w
      = ((Some (trackedConn (length (heap w)) databaseName), None),
         mkWorld (mkProvider (connectionStringFunc (prov w)) (poolConfig (prov w))
                             (<[databaseName := length (heap w)]> (pools (prov w))))
                 (heap w ++ [mkPool config false]) ds3
                 (EvPing ctx (length (heap w)) :: EvConnectConfig ctx config :: tr1))).
Proof.
  intros Habs connString tr1. subst connString tr1.
  unfold Connect, connectLocked. rewrite Habs.
  split; [| split; [| split; [| split]]].
  - intros err ds1 Hparse. rewrite Hparse. reflexivity.
  - intros parsed ds1 Hparse Hnz Hlt.
    rewrite Hparse, (applyPoolConfig_rejects _ parsed Hnz Hlt). reflexivity.
  - intros parsed ds1 config err ds2 Hparse Happly Hconn.
    rewrite Hparse, Happly, Hconn. reflexivity.
  - intros parsed ds1 config ds2 err ds3 Hparse Happly Hconn Hping.
    rewrite Hparse, Happly, Hconn, Hping.
    unfold PoolClose. cbn [prov heap env trace]. rewrite alter_close_last. reflexivity.
  - intros parsed ds1 config ds2 ds3 Hparse Happly Hconn Hping.
    rewrite Hparse, Happly, Hconn, Hping. reflexivity.
Qed.


(** ** The configuration handed to the driver *)

(** C10. When [Connect] succeeds for a name that was not registered, the
    pool it registers was built from the parsed configuration overwritten
    with the provider's [MinConns], [MaxConnLifetime], [MaxConnIdleTime] and
    [AfterConnect], whatever their values (zero and nil included), while
    [MaxConns] is taken from the provider only when it is not zero and
    otherwise stays as parsed.  That configuration is the one passed to
    [ConnectConfig]. *)
Theorem Connect_copies_pool_settings ctx databaseName w c w' :
  pools (prov w) !! databaseName = None ->
  Connect ctx databaseName w = ((Some c, None), w') ->
  exists parsed ds1 config,
    ParseConfig (env w) (connectionStringFunc (prov w) databaseName) = (inl parsed, ds1) /\
    heap w' !! Pool c = Some (mkPool config false) /\
    In (EvConnectConfig ctx config) (trace w') /\
    MinConns config = MinConns (poolConfig (prov w)) /\
    MaxConnLifetime config = MaxConnLifetime (poolConfig (prov w)) /\
    MaxConnIdleTime config = MaxConnIdleTime (poolConfig (prov w)) /\
    AfterConnect config = AfterConnect (poolConfig (prov w)) /\
    MaxConns config = (if Z.eqb (MaxConns (poolConfig (prov w))) 0
                       then MaxConns parsed
                       else MaxConns (poolConfig (prov w))) /\
    ConnConfig config = ConnConfig parsed.
Proof.
  intros Hreg Hc.
  pose proof (Connect_outcome ctx databaseName w Hreg) as Hout.
  rewrite Hc in Hout. simpl in Hout.
  inversion Hout; subst; simpl.
  exists parsed, ds1, config.
  match goal with Ha : applyPoolConfig _ _ = inl _ |- _ =>
    apply applyPoolConfig_ok in Ha as [_ ->] end.
  simpl. repeat split; try assumption.
  - rewrite lookup_app_r by lia. rewrite Nat.sub_diag. reflexivity.
  - right; left; reflexivity.
Qed.

(** ** Options *)

Lemma NewConnectionProvider_snoc fn (opts : list ConnectionOption) opt :
  NewConnectionProvider fn (opts ++ [opt]) = opt (NewConnectionProvider fn opts).
Proof. unfold NewConnectionProvider. rewrite foldl_app. reflexivity. Qed.

Lemma lastSet_snoc {A} (sets : OptionCall -> option A) os o :
  lastSet sets (os ++ [o]) =
  match sets o with
  | Some v => Some v
  | None => lastSet sets os
  end.
Proof.
  unfold lastSet. rewrite omap_app. simpl.
  destruct (sets o) as [v |].
  - apply last_snoc.
  - rewrite app_nil_r. reflexivity.
Qed.

(** Options never touch the map or the connection-string builder. *)
Lemma NewConnectionProvider_pools fn os :
  pools (NewConnectionProvider fn (map toOption os)) = ∅ /\
  connectionStringFunc (NewConnectionProvider fn (map toOption os)) = fn.
Proof.
  induction os as [| o os IH] using rev_ind; [split; reflexivity |].
  rewrite map_app. simpl. rewrite NewConnectionProvider_snoc.
  destruct o; simpl; exact IH.
Qed.

(** C8. [NewConnectionProvider] applies its options from first to last, and
    each field of the provider's pool configuration ends up with the value
    written by the last option of the sequence that writes it (the zero
    value when none does).  [WithPoolConfig] writes every field. *)
Theorem options_last_write_wins fn (os : list OptionCall) :
  let pc := poolConfig (NewConnectionProvider fn (map toOption os)) in
  NewConnectionProvider fn (map toOption os)
    = foldl (fun p o => toOption o p) (mkProvider fn zeroConfig ∅) os /\
  MaxConns pc = default 0 (lastSet setsMaxConns os) /\
  MinConns pc = default 0 (lastSet setsMinConns os) /\
  MaxConnLifetime pc = default 0 (lastSet setsMaxConnLifetime os) /\
  MaxConnIdleTime pc = default 0 (lastSet setsMaxConnIdleTime os) /\
  AfterConnect pc = default None (lastSet setsAfterConnect os).
Proof.
  simpl. split.
  { unfold NewConnectionProvider. generalize (mkProvider fn zeroConfig ∅).
    induction os as [| o os IH]; intros p; simpl; [reflexivity | apply IH]. }
  induction os as [| o os IH] using rev_ind.
  { repeat split. }
  rewrite map_app. simpl. rewrite NewConnectionProvider_snoc.
  rewrite !lastSet_snoc.
  destruct IH as (IH1 & IH2 & IH3 & IH4 & IH5).
  destruct o; simpl; repeat split; assumption.
Qed.

(** ** The loop of the provider's Close *)

Lemma closeAll_frame l w :
  prov (closeAll l w) = prov w /\
  env (closeAll l w) = env w /\
  length (heap (closeAll l w)) = length (heap w) /\
  trace (closeAll l w) = rev (map EvPoolClose (map snd l)) ++ trace w.
Proof.
  revert w. induction l as [| kv l IH]; intros w; simpl.
  { repeat split. }
  destruct (IH (PoolClose (snd kv) w)) as (Hp & He & Hl & Ht).
  unfold closeAll in *. rewrite Hp, He, Hl, Ht. simpl.
  rewrite length_alter. repeat split.
  rewrite <- app_assoc. reflexivity.
Qed.

Lemma closeAll_lookup_other l w pool :
  ~ In pool (map snd l) -> heap (closeAll l w) !! pool = heap w !! pool.
Proof.
  revert w. induction l as [| kv l IH]; intros w Hnot; simpl; [reflexivity |].
  unfold closeAll in *. rewrite IH.
  - simpl. apply list_lookup_alter_ne. intros Heq. apply Hnot. left; exact Heq.
  - intros Hin. apply Hnot. right; exact Hin.
Qed.

Lemma closeAll_lookup_closed l w pool o :
  In pool (map snd l) -> heap w !! pool = Some o ->
  heap (closeAll l w) !! pool = Some (closePoolObj o).
Proof.
  revert w o. induction l as [| kv l IH]; intros w o Hin Ho; simpl in *; [contradiction |].
  unfold closeAll in *.
  destruct (in_dec Nat.eq_dec pool (map snd l)) as [Hin' | Hnot].
  - destruct (decide (snd kv = pool)) as [-> | Hne].
    + erewrite IH; [| exact Hin' | simpl; apply lookup_alter_closed, Ho].
      reflexivity.
    + apply IH; [exact Hin' |]. simpl.
      rewrite list_lookup_alter_ne by exact Hne. exact Ho.
  - destruct Hin as [Heq | Hin]; [| contradiction].
    pose proof (closeAll_lookup_other l (PoolClose (snd kv) w) pool Hnot) as Hk.
    unfold closeAll in Hk. rewrite Hk. simpl. rewrite Heq.
    apply lookup_alter_closed, Ho.
Qed.

Lemma rangeOrder_empty ds : rangeOrder ds (∅ : gmap string PoolPtr) = [].
Proof.
  apply Permutation_nil_r. rewrite rangeOrder_perm, map_to_list_empty. reflexivity.
Qed.

Lemma rangeOrder_elem ds (m : gmap string PoolPtr) databaseName pool :
  In (databaseName, pool) (rangeOrder ds m) <-> m !! databaseName = Some pool.
Proof.
  rewrite <- list_elem_of_In, rangeOrder_perm. apply elem_of_map_to_list.
Qed.

Lemma ConnectionProvider_Close_frame w :
  pools (prov (ConnectionProvider_Close w)) = ∅ /\
  connectionStringFunc (prov (ConnectionProvider_Close w)) = connectionStringFunc (prov w) /\
  poolConfig (prov (ConnectionProvider_Close w)) = poolConfig (prov w) /\
  env (ConnectionProvider_Close w) = env w /\
  length (heap (ConnectionProvider_Close w)) = length (heap w) /\
  trace (ConnectionProvider_Close w) = rev (map EvPoolClose (closedByClose w)) ++ trace w.
Proof.
  unfold ConnectionProvider_Close, closedByClose.
  destruct (closeAll_frame (rangeOrder (env w) (pools (prov w))) w) as (Hp & He & Hl & Ht).
  simpl. rewrite Hp, He, Hl, Ht. repeat split.
Qed.

(** ** What every reachable state satisfies *)

Lemma Reachable_invariant w hs :
  Reachable w hs ->
  registryOK w /\
  Forall (handleOK w) hs /\
  (MaxConns (poolConfig (prov w)) <> 0 -> MaxConns (poolConfig (prov w)) < 1 ->
   pools (prov w) = ∅).
Proof.
  induction 1 as [fn os h ds | w hs ctx databaseName Hr IH | w hs c Hr IH Hin
                  | w hs Hr IH | w hs ds Hr IH].
  - destruct (NewConnectionProvider_pools fn os) as [Hp _]. simpl.
    split; [| split; [constructor | intros; exact Hp]].
    split; simpl; intros *; rewrite Hp, lookup_empty; discriminate.
  - destruct IH as ((Hopen & Hinj) & Hhs & Hrej).
    destruct (pools (prov w) !! databaseName) as [pool |] eqn:Hreg.
    + rewrite (Connect_registered _ _ _ _ Hreg). simpl. unfold issued; simpl.
      split; [split; assumption |]. split; [| assumption].
      constructor; [| assumption].
      destruct (Hopen _ _ Hreg) as (o & Ho & _).
      split; [reflexivity |]. split; [eapply lookup_lt_Some, Ho |].
      simpl. intros name' Hn. eapply Hinj; eassumption.
    + pose proof (Connect_outcome ctx databaseName w Hreg) as Hout.
      assert (Hkeep : forall w',
                 prov w' = prov w ->
                 (exists extra, heap w' = heap w ++ extra) ->
                 registryOK w' /\ Forall (handleOK w') hs /\
                 (MaxConns (poolConfig (prov w')) <> 0 ->
                  MaxConns (poolConfig (prov w')) < 1 -> pools (prov w') = ∅)).
      { intros w' Hp (extra & Hh). unfold registryOK. rewrite Hp.
        split; [split |]; [| exact Hinj | split; [| exact Hrej]].
        - intros n p Hn. destruct (Hopen _ _ Hn) as (o & Ho & Hc).
          exists o. split; [| exact Hc]. rewrite Hh. apply lookup_app_l_Some, Ho.
        - eapply Forall_impl; [exact Hhs |].
          intros c (Hc1 & Hc2 & Hc3). split; [exact Hc1 |].
          split; [| rewrite Hp; exact Hc3].
          rewrite Hh, length_app. lia. }
      unfold issued.
      destruct (Connect ctx databaseName w) as [r w'] eqn:HC. simpl in Hout |- *.
      inversion Hout; subst r w'; cbn [fst snd].
      * apply Hkeep; [reflexivity | exists []; simpl; rewrite app_nil_r; reflexivity].
      * apply Hkeep; [reflexivity | exists []; simpl; rewrite app_nil_r; reflexivity].
      * apply Hkeep; [reflexivity | exists []; simpl; rewrite app_nil_r; reflexivity].
      * apply Hkeep; [reflexivity | eexists; reflexivity].
      * assert (Hfresh : forall n, pools (prov w) !! n <> Some (length (heap w))).
        { intros n Hn. destruct (Hopen _ _ Hn) as (o & Ho & _).
          apply lookup_lt_Some in Ho. lia. }
        unfold registryOK, handleOK. simpl.
        split; [split |].
        -- intros n p. rewrite lookup_insert. case_decide as Hd.
           ++ intros [= <-]. exists (mkPool config false). split; [| reflexivity].
              rewrite lookup_app_r by lia. rewrite Nat.sub_diag. reflexivity.
           ++ intros Hn. destruct (Hopen _ _ Hn) as (o & Ho & Hc).
              exists o. split; [apply lookup_app_l_Some, Ho | exact Hc].
        -- intros n1 n2 p. rewrite !lookup_insert.
           repeat case_decide; subst; intros Hn1 Hn2; try reflexivity.
           ++ injection Hn1 as <-. exfalso. eapply Hfresh, Hn2.
           ++ injection Hn2 as <-. exfalso. eapply Hfresh, Hn1.
           ++ eapply Hinj; eassumption.
        -- split.
           ++ constructor.
              ** split; [reflexivity |]. simpl. split; [rewrite length_app; simpl; lia |].
                 intros n. rewrite lookup_insert. case_decide; [auto |].
                 intros Hn. exfalso. eapply Hfresh, Hn.
              ** eapply Forall_impl; [exact Hhs |].
                 intros c (Hc1 & Hc2 & Hc3). split; [exact Hc1 |]. simpl.
                 split; [rewrite length_app; lia |].
                 intros n. rewrite lookup_insert. case_decide.
                 --- intros [= Heq]. lia.
                 --- apply Hc3.
           ++ intros Hnz Hlt.
              match goal with Ha : applyPoolConfig _ _ = inl _ |- _ =>
                apply applyPoolConfig_ok in Ha as [[Hz | Hge] _]; lia end.
  - destruct IH as ((Hopen & Hinj) & Hhs & Hrej).
    assert (Hc : handleOK w c).
    { rewrite Forall_forall in Hhs. apply Hhs, list_elem_of_In, Hin. }
    destruct Hc as (Hc1 & Hc2 & Hc3).
    unfold DatabaseConnection_Close. rewrite Hc1. simpl.
    split; [split |]; simpl.
    + intros n p Hn. apply lookup_delete_Some in Hn as [Hne Hn].
      destruct (Hopen _ _ Hn) as (o & Ho & Hcl).
      exists o. split; [| exact Hcl].
      rewrite list_lookup_alter_ne; [exact Ho |].
      intros <-. apply Hne. symmetry. apply Hc3, Hn.
    + intros n1 n2 p H1 H2.
      apply lookup_delete_Some in H1 as [_ H1].
      apply lookup_delete_Some in H2 as [_ H2].
      eapply Hinj; eassumption.
    + split.
      * eapply Forall_impl; [exact Hhs |].
        intros c' (Hc1' & Hc2' & Hc3'). split; [exact Hc1' |]. simpl.
        split; [rewrite length_alter; exact Hc2' |].
        intros n Hn. apply lookup_delete_Some in Hn as [_ Hn]. apply Hc3', Hn.
      * intros Hnz Hlt. rewrite (Hrej Hnz Hlt). apply delete_empty.
  - destruct IH as ((Hopen & Hinj) & Hhs & Hrej).
    destruct (ConnectionProvider_Close_frame w) as (Hp & Hf & Hpc & He & Hl & Ht).
    split; [split |].
    + intros n p. rewrite Hp, lookup_empty. discriminate.
    + intros n1 n2 p. rewrite Hp, lookup_empty. discriminate.
    + split; [| intros; exact Hp].
      eapply Forall_impl; [exact Hhs |].
      intros c (Hc1 & Hc2 & Hc3). split; [exact Hc1 |].
      split; [rewrite Hl; exact Hc2 |].
      intros n. rewrite Hp, lookup_empty. discriminate.
  - exact IH.
Qed.

(** ** Validation of MaxConns *)

(** C4 (as the code has it). In every reachable state of a provider whose
    [MaxConns] is neither zero nor at least 1, [Connect] fails for every
    name, builds no pool and makes no call that reaches the network; the
    connection string is parsed first, so the error is the validation error
    when the string parses and the parse error when it does not.  When
    [MaxConns] is zero or at least 1 and the string parses, no validation
    error arises whatever the two durations are (zero included): the driver
    is asked to build a pool from a configuration that keeps the [MaxConns]
    its [ParseConfig] returned when the provider's is zero and carries the
    provider's durations as they are, so that a zero duration reaches the
    driver as zero, which it reads as no limit. *)
Theorem Connect_validates_MaxConns w hs ctx databaseName :
  Reachable w hs ->
  let pc := poolConfig (prov w) in
  let connString := connectionStringFunc (prov w) databaseName in
  let r := fst (Connect ctx databaseName w) in
  let w' := snd (Connect ctx databaseName w) in
  (MaxConns pc <> 0 -> MaxConns pc < 1 ->
     fst r = None /\
     heap w' = heap w /\ prov w' = prov w /\
     (exists evs, trace w' = evs ++ trace w /\
                  forallb (fun ev => negb (isNetworkEvent ev)) evs = true) /\
     ((exists parsed ds1,
          ParseConfig (env w) connString = (inl parsed, ds1) /\
          snd r = Some (Errorf_MaxConns (MaxConns pc)))
      \/ (exists err ds1,
          ParseConfig (env w) connString = (inr err, ds1) /\
          snd r = Some (Errorf_w parseStage err)))) /\
  (forall parsed ds1,
     pools (prov w) !! databaseName = None ->
     ParseConfig (env w) connString = (inl parsed, ds1) ->
     MaxConns pc = 0 \/ 1 <= MaxConns pc ->
     exists config tr,
       trace w' = tr ++ EvConnectConfig ctx config :: EvParseConfig connString
                     :: EvConnectionString databaseName :: trace w /\
       MaxConns config = (if Z.eqb (MaxConns pc) 0 then MaxConns parsed else MaxConns pc) /\
       MaxConnLifetime config = MaxConnLifetime pc /\
       MaxConnIdleTime config = MaxConnIdleTime pc /\
       (MaxConnLifetime pc = 0 -> durationLimit (MaxConnLifetime config) = None) /\
       (MaxConnIdleTime pc = 0 -> durationLimit (MaxConnIdleTime config) = None) /\
       (snd r = None \/
        exists err, snd r = Some (Errorf_w createStage err) \/
                    snd r = Some (Errorf_w pingStage err))).
Proof.
  intros Hr pc connString r w'. subst pc connString r w'.
  destruct (Reachable_invariant _ _ Hr) as (_ & _ & Hrej).
  split.
  - intros Hnz Hlt.
    assert (Hreg : pools (prov w) !! databaseName = None).
    { rewrite (Hrej Hnz Hlt). apply lookup_empty. }
    pose proof (Connect_outcome ctx databaseName w Hreg) as Hout.
    destruct (Connect ctx databaseName w) as [r w'] eqn:HC. simpl in Hout |- *.
    inversion Hout; subst r w'; simpl;
      try (match goal with Ha : applyPoolConfig _ _ = inl _ |- _ =>
             apply applyPoolConfig_ok in Ha as [[Hz | Hge] _]; lia end).
    + repeat split.
      * exists [EvParseConfig (connectionStringFunc (prov w) databaseName);
                EvConnectionString databaseName]. split; reflexivity.
      * right. eauto.
    + repeat split.
      * exists [EvParseConfig (connectionStringFunc (prov w) databaseName);
                EvConnectionString databaseName]. split; reflexivity.
      * left. eauto.
  - intros parsed ds1 Hreg Hparse Hok.
    pose proof (Connect_outcome ctx databaseName w Hreg) as Hout.
    destruct (Connect ctx databaseName w) as [r w'] eqn:HC. simpl in Hout |- *.
    inversion Hout; subst r w'; simpl;
      match goal with Hp : ParseConfig _ _ = _ |- _ =>
        rewrite Hparse in Hp; try discriminate Hp; injection Hp as <- <- end;
      try lia;
      match goal with Ha : applyPoolConfig _ _ = inl _ |- _ =>
        apply applyPoolConfig_ok in Ha as [_ ->] end.
    + eexists _, []. cbn [MaxConns MaxConnLifetime MaxConnIdleTime app fst snd].
      split_and!; try reflexivity; try (intros Hz; rewrite Hz; reflexivity).
      right. eauto.
    + eexists _, [_; _]. cbn [MaxConns MaxConnLifetime MaxConnIdleTime app fst snd].
      split_and!; try reflexivity; try (intros Hz; rewrite Hz; reflexivity).
      right. eauto.
    + eexists _, [_]. cbn [MaxConns MaxConnLifetime MaxConnIdleTime app fst snd].
      split_and!; try reflexivity; try (intros Hz; rewrite Hz; reflexivity).
      left. reflexivity.
Qed.

(** ** Closing a handle *)

Lemma DatabaseConnection_Close_tracked c w :
  provider c = Some thisProvider ->
  DatabaseConnection_Close c w
  = (None, setPools (delete (dbName c) (pools (prov w))) (PoolClose (Pool c) w)).
Proof. intros Hc. unfold DatabaseConnection_Close. rewrite Hc. reflexivity. Qed.

Lemma Reachable_handle w hs c :
  Reachable w hs -> In c hs -> handleOK w c.
Proof.
  intros Hr Hin. destruct (Reachable_invariant _ _ Hr) as (_ & Hhs & _).
  rewrite Forall_forall in Hhs. apply Hhs, list_elem_of_In, Hin.
Qed.

(** Closing a handle that [Connect] returned, then calling [Connect] for
    the same name: what is closed, what is removed, and what a handle
    returned by that [Connect] is bound to. *)
Lemma Close_then_Connect_paths w hs c ctx :
  Reachable w hs -> In c hs ->
  let w1 := snd (DatabaseConnection_Close c w) in
  let r := fst (Connect ctx (dbName c) w1) in
  let w2 := snd (Connect ctx (dbName c) w1) in
  let connString := connectionStringFunc (prov w) (dbName c) in
  fst (DatabaseConnection_Close c w) = None /\
  (exists o, heap w1 !! Pool c = Some o /\ closed o = true) /\
  pools (prov w1) = delete (dbName c) (pools (prov w)) /\
  pools (prov w1) !! dbName c = None /\
  (exists tr, trace w2 = tr ++ EvParseConfig connString
                           :: EvConnectionString (dbName c) :: trace w1) /\
  (forall c2, fst r = Some c2 ->
     snd r = None /\
     Pool c2 = length (heap w1) /\ Pool c2 <> Pool c /\
     (exists config, heap w2 = heap w1 ++ [mkPool config false]) /\
     pools (prov w2) !! dbName c = Some (Pool c2)) /\
  (forall parsed ds1 config ds2 ds3,
     ParseConfig (env w1) connString = (inl parsed, ds1) ->
     applyPoolConfig (poolConfig (prov w)) parsed = inl config ->
     ConnectConfig ds1 ctx config = (None, ds2) ->
     Ping ds2 ctx (length (heap w1)) = (None, ds3) ->
     r = (Some (trackedConn (length (heap w1)) (dbName c)), None)).
Proof.
  intros Hr Hin.
  destruct (Reachable_handle _ _ _ Hr Hin) as (Hc1 & Hc2 & Hc3).
  rewrite (DatabaseConnection_Close_tracked c w Hc1). cbn [fst snd].
  set (w1 := setPools _ _).
  assert (Hlen : length (heap w1) = length (heap w)).
  { subst w1. simpl. apply length_alter. }
  assert (Hreg : pools (prov w1) !! dbName c = None).
  { subst w1. simpl. apply lookup_delete_eq. }
  split; [reflexivity |]. split.
  { destruct (lookup_lt_is_Some_2 _ _ Hc2) as [o Ho].
    exists (closePoolObj o). split; [| reflexivity].
    subst w1. simpl. apply lookup_alter_closed, Ho. }
  split; [reflexivity |]. split; [exact Hreg |].
  pose proof (Connect_outcome ctx (dbName c) w1 Hreg) as Hout.
  destruct (Connect ctx (dbName c) w1) as [r w2] eqn:HC. cbn [fst snd] in Hout |- *.
  change (connectionStringFunc (prov w) (dbName c))
    with (connectionStringFunc (prov w1) (dbName c)).
  change (poolConfig (prov w)) with (poolConfig (prov w1)).
  inversion Hout; subst r w2; cbn [fst snd trace heap prov pools];
    (split; [| split]);
    try (first [ exists []; reflexivity | eexists [_]; reflexivity
               | eexists [_; _]; reflexivity | eexists [_; _; _]; reflexivity ]);
    try (intros ? [=]; fail);
    try (intros parsed' ds1' config' ds2' ds3' Hp' Ha' Hc' Hg';
         repeat match goal with
         | Hx : ParseConfig ?a ?b = _, Hy : ParseConfig ?a ?b = _ |- _ =>
             rewrite Hx in Hy; try discriminate Hy; injection Hy as <- <-
         | Hx : applyPoolConfig ?a ?b = _, Hy : applyPoolConfig ?a ?b = _ |- _ =>
             rewrite Hx in Hy; try discriminate Hy; injection Hy as <-
         | Hx : ConnectConfig ?a ?b ?d = _, Hy : ConnectConfig ?a ?b ?d = _ |- _ =>
             rewrite Hx in Hy; try discriminate Hy; injection Hy as <-
         | Hx : Ping ?a ?b ?d = _, Hy : Ping ?a ?b ?d = _ |- _ =>
             rewrite Hx in Hy; try discriminate Hy
         end;
         try reflexivity;
         try (apply applyPoolConfig_ok in Ha' as [[? | ?] _]; lia)).
  intros c2 [= <-]. cbn [Pool trackedConn].
  split; [reflexivity |]. split; [reflexivity |].
  split; [rewrite length_alter; lia |].
  split; [eexists; reflexivity | apply lookup_insert_eq].
Qed.

(** C5 (as the code has it). Closing a handle that [Connect] returned closes
    its pool, removes the entry of its database name from the map and
    returns no error.  A [Connect] for the same name right after finds no
    entry and goes through construction again, starting with the
    connection-string builder and [ParseConfig]; it never hands back the old
    pool: any handle it returns is bound to a pool object that did not exist
    before, open and registered under the name.  When parsing, the
    [MaxConns] check, [ConnectConfig] and [Ping] succeed it returns such a
    handle, and it returns a handle only then; when one of them fails it
    returns that stage's error and no handle, registers nothing and leaves
    no open pool behind. *)
Theorem Close_then_Connect_rebuilds w hs c ctx :
  Reachable w hs -> In c hs ->
  let w1 := snd (DatabaseConnection_Close c w) in
  let r := fst (Connect ctx (dbName c) w1) in
  let w2 := snd (Connect ctx (dbName c) w1) in
  let connString := connectionStringFunc (prov w) (dbName c) in
  fst (DatabaseConnection_Close c w) = None /\
  (exists o, heap w1 !! Pool c = Some o /\ closed o = true) /\
  pools (prov w1) = delete (dbName c) (pools (prov w)) /\
  pools (prov w1) !! dbName c = None /\
  (exists tr, trace w2 = tr ++ EvParseConfig connString
                           :: EvConnectionString (dbName c) :: trace w1) /\
  (forall c2, fst r = Some c2 ->
     snd r = None /\
     Pool c2 = length (heap w1) /\ Pool c2 <> Pool c /\
     (exists config, heap w2 = heap w1 ++ [mkPool config false]) /\
     pools (prov w2) !! dbName c = Some (Pool c2)) /\
  (forall parsed ds1 config ds2 ds3,
     ParseConfig (env w1) connString = (inl parsed, ds1) ->
     applyPoolConfig (poolConfig (prov w)) parsed = inl config ->
     ConnectConfig ds1 ctx config = (None, ds2) ->
     Ping ds2 ctx (length (heap w1)) = (None, ds3) ->
     r = (Some (trackedConn (length (heap w1)) (dbName c)), None)) /\
  (forall c2, fst r = Some c2 ->
     exists parsed ds1 config ds2 ds3,
       ParseConfig (env w1) connString = (inl parsed, ds1) /\
       applyPoolConfig (poolConfig (prov w)) parsed = inl config /\
       ConnectConfig ds1 ctx config = (None, ds2) /\
       Ping ds2 ctx (length (heap w1)) = (None, ds3)) /\
  (forall err ds1,
     ParseConfig (env w1) connString = (inr err, ds1) ->
     r = (None, Some (Errorf_w parseStage err))) /\
  (forall parsed ds1,
     ParseConfig (env w1) connString = (inl parsed, ds1) ->
     MaxConns (poolConfig (prov w)) <> 0 -> MaxConns (poolConfig (prov w)) < 1 ->
     r = (None, Some (Errorf_MaxConns (MaxConns (poolConfig (prov w)))))) /\
  (forall parsed ds1 config err ds2,
     ParseConfig (env w1) connString = (inl parsed, ds1) ->
     applyPoolConfig (poolConfig (prov w)) parsed = inl config ->
     ConnectConfig ds1 ctx config = (Some err, ds2) ->
     r = (None, Some (Errorf_w createStage err))) /\
  (forall parsed ds1 config ds2 err ds3,
     ParseConfig (env w1) connString = (inl parsed, ds1) ->
     applyPoolConfig (poolConfig (prov w)) parsed = inl config ->
     ConnectConfig ds1 ctx config = (None, ds2) ->
     Ping ds2 ctx (length (heap w1)) = (Some err, ds3) ->
     r = (None, Some (Errorf_w pingStage err))) /\
  (fst r = None ->
     (exists e, snd r = Some e) /\
     prov w2 = prov w1 /\
     pools (prov w2) !! dbName c = None /\
     (forall pool o, (length (heap w1) <= pool)%nat ->
                     heap w2 !! pool = Some o -> closed o = true)).
Proof.
  intros Hr Hin.
  pose proof (Close_then_Connect_paths w hs c ctx Hr Hin) as Hpaths.
  cbv zeta in Hpaths |- *.
  destruct Hpaths as (A1 & A2 & A3 & A4 & A5 & A6 & A7).
  do 7 (split; [assumption |]).
  destruct (Reachable_handle _ _ _ Hr Hin) as (Hc1 & _ & _).
  revert A4. clear A1 A2 A3 A5 A6 A7.
  rewrite (DatabaseConnection_Close_tracked c w Hc1). cbn [snd].
  set (w1 := setPools _ _). intros Hreg.
  change (connectionStringFunc (prov w) (dbName c))
    with (connectionStringFunc (prov w1) (dbName c)).
  change (poolConfig (prov w)) with (poolConfig (prov w1)).
  destruct (Connect_by_stage ctx (dbName c) w1 Hreg) as (F1 & F2 & F3 & F4 & _).
  cbv zeta in F1, F2, F3, F4.
  pose proof (Connect_outcome ctx (dbName c) w1 Hreg) as Hout.
  split.
  { intros c2 Hc2.
    destruct (Connect ctx (dbName c) w1) as [r w2] eqn:HC. cbn [fst snd] in Hout, Hc2.
    inversion Hout; subst r w2; cbn [fst] in Hc2; try discriminate Hc2.
    exists parsed, ds1, config, ds2, ds3. auto. }
  split; [intros err ds1 Hp; rewrite (F1 _ _ Hp); reflexivity |].
  split; [intros parsed ds1 Hp Hnz Hlt; rewrite (F2 _ _ Hp Hnz Hlt); reflexivity |].
  split; [intros parsed ds1 config err ds2 Hp Ha Hcc;
          rewrite (F3 _ _ _ _ _ Hp Ha Hcc); reflexivity |].
  split; [intros parsed ds1 config ds2 err ds3 Hp Ha Hcc Hpg;
          rewrite (F4 _ _ _ _ _ _ Hp Ha Hcc Hpg); reflexivity |].
  intros Hnone.
  destruct (Connect ctx (dbName c) w1) as [r w2] eqn:HC. cbn [fst snd] in Hout, Hnone |- *.
  inversion Hout; subst r w2; cbn [fst snd prov heap] in Hnone |- *;
    try discriminate Hnone;
    (split; [eexists; reflexivity |]); (split; [reflexivity |]); (split; [exact Hreg |]);
    intros pool o Hge Ho.
  - apply lookup_lt_Some in Ho. lia.
  - apply lookup_lt_Some in Ho. lia.
  - apply lookup_lt_Some in Ho. lia.
  - rewrite lookup_app_r in Ho by exact Hge.
    destruct (pool - length (heap w1))%nat as [| k]; simpl in Ho; [| discriminate].
    injection Ho as <-. reflexivity.
Qed.

Lemma alter_close_twice (h : list PoolObj) pool :
  alter closePoolObj pool (alter closePoolObj pool h) = alter closePoolObj pool h.
Proof.
  revert pool. induction h as [| o h IH]; intros [| pool]; simpl; try reflexivity.
  f_equal. apply IH.
Qed.

Lemma repeat_app_cons {A} (x : A) n l :
  repeat x n ++ x :: l = x :: repeat x n ++ l.
Proof. induction n as [| n IH]; simpl; [reflexivity | rewrite IH; reflexivity]. Qed.

(** Once a handle has been closed, closing it again only adds to the log. *)
Lemma closeTimes_settled n c w :
  alter closePoolObj (Pool c) (heap w) = heap w ->
  match provider c with
  | Some _ => pools (prov w) !! dbName c = None
  | None => True
  end ->
  closeTimes n c w
  = (repeat None n,
     mkWorld (prov w) (heap w) (env w) (repeat (EvPoolClose (Pool c)) n ++ trace w)).
Proof.
  revert w. induction n as [| n IH]; intros w Hheap Hmap.
  { destruct w; reflexivity. }
  cbn [closeTimes].
  assert (Hstep : DatabaseConnection_Close c w
                  = (None, mkWorld (prov w) (heap w) (env w)
                                   (EvPoolClose (Pool c) :: trace w))).
  { unfold DatabaseConnection_Close, setPools, PoolClose.
    destruct (provider c); simpl; rewrite Hheap; [| reflexivity].
    rewrite (delete_id _ _ Hmap). destruct w as [[f pc m] h ds tr]; reflexivity. }
  rewrite Hstep. cbn [fst snd].
  rewrite IH; [| exact Hheap | exact Hmap]. simpl.
  rewrite repeat_app_cons. reflexivity.
Qed.

Lemma alter_close_closed (h : list PoolObj) pool o :
  h !! pool = Some o -> closed o = true -> alter closePoolObj pool h = h.
Proof.
  revert pool. induction h as [| x h IH]; intros [| pool] Ho Hc; simpl in *;
    try discriminate.
  - injection Ho as ->. destruct o as [cfg cl]. simpl in Hc. subst cl. reflexivity.
  - f_equal. eapply IH; eassumption.
Qed.

(** C6. Closing a handle returns no error in any state, however often it
    is repeated and whether or not the handle refers to a provider, and a
    pool that is closed already is left as it is.  After the first call the
    entry of a tracked handle is absent, and each further call on that
    handle leaves the provider, the map, every pool object and the outside
    world exactly as the first call left them: the pool is asked to close
    again, which releases nothing since it is closed already. *)
Theorem Close_idempotent c w n :
  let w1 := snd (DatabaseConnection_Close c w) in
  let rn := closeTimes n c w1 in
  (forall w0, fst (DatabaseConnection_Close c w0) = None) /\
  (forall w0 o, heap w0 !! Pool c = Some o -> closed o = true ->
                heap (snd (DatabaseConnection_Close c w0)) = heap w0) /\
  fst rn = repeat None n /\
  prov (snd rn) = prov w1 /\
  heap (snd rn) = heap w1 /\
  env (snd rn) = env w1 /\
  trace (snd rn) = repeat (EvPoolClose (Pool c)) n ++ trace w1 /\
  match provider c with
  | Some _ => pools (prov w1) !! dbName c = None
  | None => pools (prov w1) = pools (prov w)
  end.
Proof.
  intros w1 rn.
  assert (Hheap : alter closePoolObj (Pool c) (heap w1) = heap w1).
  { subst w1. unfold DatabaseConnection_Close.
    destruct (provider c); simpl; apply alter_close_twice. }
  assert (Hmap : match provider c with
                 | Some _ => pools (prov w1) !! dbName c = None
                 | None => pools (prov w1) = pools (prov w)
                 end).
  { subst w1. unfold DatabaseConnection_Close.
    destruct (provider c); simpl; [apply lookup_delete_eq | reflexivity]. }
  split.
  { intros w0. unfold DatabaseConnection_Close. destruct (provider c); reflexivity. }
  split.
  { intros w0 o Ho Hc. unfold DatabaseConnection_Close.
    destruct (provider c); simpl; eapply alter_close_closed; eassumption. }
  subst rn. rewrite closeTimes_settled.
  - simpl. repeat split. exact Hmap.
  - exact Hheap.
  - destruct (provider c); [exact Hmap | exact I].
Qed.

(** ** Closing the provider *)

Lemma NoDup_map_snd {A B} (l : list (A * B)) :
  NoDup l ->
  (forall x y, In x l -> In y l -> snd x = snd y -> x = y) ->
  NoDup (map snd l).
Proof.
  induction l as [| x l IH]; intros Hnd Hinj; simpl; [constructor |].
  apply NoDup_cons_1_1 in Hnd as Hx. apply NoDup_cons_1_2 in Hnd as Hl.
  apply NoDup_cons_2.
  - rewrite list_elem_of_In. intros Hin. apply in_map_iff in Hin as (y & Hy & Hyl).
    apply Hx. rewrite list_elem_of_In.
    rewrite <- (Hinj y x); [exact Hyl | right; exact Hyl | left; reflexivity | exact Hy].
  - apply IH; [exact Hl |]. intros y z Hy Hz. apply Hinj; right; assumption.
Qed.

(** C7. The provider's [Close] leaves an empty map and closes exactly the
    pools that were registered, one call per entry, touching nothing else.
    Calling it again changes nothing, and with an empty map it changes
    nothing in the first place.  In every reachable state the registered
    pools are distinct and still open, so no pool is closed twice: neither
    twice in one call, nor after having been closed before. *)
Theorem ConnectionProvider_Close_closes_all w :
  let w' := ConnectionProvider_Close w in
  pools (prov w') = ∅ /\
  connectionStringFunc (prov w') = connectionStringFunc (prov w) /\
  poolConfig (prov w') = poolConfig (prov w) /\
  env w' = env w /\
  trace w' = rev (map EvPoolClose (closedByClose w)) ++ trace w /\
  closedByClose w ≡ₚ map snd (map_to_list (pools (prov w))) /\
  (forall pool, ~ In pool (closedByClose w) -> heap w' !! pool = heap w !! pool) /\
  ConnectionProvider_Close w' = w' /\
  (pools (prov w) = ∅ -> w' = w) /\
  (forall hs, Reachable w hs ->
     NoDup (closedByClose w) /\
     forall databaseName pool,
       pools (prov w) !! databaseName = Some pool ->
       In pool (closedByClose w) /\
       exists o, heap w !! pool = Some o /\ closed o = false /\
                 heap w' !! pool = Some (closePoolObj o)).
Proof.
  intros w'. subst w'.
  destruct (ConnectionProvider_Close_frame w) as (Hp & Hf & Hpc & He & Hl & Ht).
  repeat (split; [assumption |]).
  split.
  { unfold closedByClose. apply Permutation_map, rangeOrder_perm. }
  split.
  { intros pool Hnot. unfold ConnectionProvider_Close. simpl.
    apply closeAll_lookup_other, Hnot. }
  split.
  { unfold ConnectionProvider_Close at 1. rewrite Hp, rangeOrder_empty.
    unfold ConnectionProvider_Close. reflexivity. }
  split.
  { intros Hempty. unfold ConnectionProvider_Close.
    rewrite Hempty, rangeOrder_empty.
    destruct w as [[f pc m] h ds tr]. simpl in *. subst m. reflexivity. }
  intros hs Hr.
  destruct (Reachable_invariant _ _ Hr) as ((Hopen & Hinj) & _ & _).
  split.
  - unfold closedByClose. apply NoDup_map_snd.
    + rewrite rangeOrder_perm. apply NoDup_map_to_list.
    + intros [n1 p1] [n2 p2] H1 H2. simpl. intros <-.
      apply rangeOrder_elem in H1, H2. f_equal. eapply Hinj; eassumption.
  - intros databaseName pool Hreg.
    assert (Hin : In pool (closedByClose w)).
    { unfold closedByClose. apply in_map_iff. exists (databaseName, pool).
      split; [reflexivity | apply rangeOrder_elem, Hreg]. }
    split; [exact Hin |].
    destruct (Hopen _ _ Hreg) as (o & Ho & Hc).
    exists o. repeat split; try assumption.
    unfold ConnectionProvider_Close. simpl.
    apply closeAll_lookup_closed; assumption.
Qed.

(** ** A stale handle *)

(** What a successful [Connect] for an unregistered name leaves behind. *)
Lemma Connect_unregistered_success ctx databaseName w c2 w2 :
  pools (prov w) !! databaseName = None ->
  Connect ctx databaseName w = ((Some c2, None), w2) ->
  Pool c2 = length (heap w) /\
  (exists config, heap w2 = heap w ++ [mkPool config false]) /\
  pools (prov w2) = <[databaseName := length (heap w)]> (pools (prov w)) /\
  exists ev1 ev2 ev3,
    trace w2 = EvPing ctx (length (heap w)) :: ev1 :: ev2 :: ev3 :: trace w /\
    forall pool, ev1 <> EvPoolClose pool /\ ev2 <> EvPoolClose pool /\
                 ev3 <> EvPoolClose pool.
Proof.
  intros Hreg HC.
  pose proof (Connect_outcome ctx databaseName w Hreg) as Hout.
  rewrite HC in Hout. cbn [fst snd] in Hout.
  inversion Hout; subst; simpl.
  split; [reflexivity |]. split; [eexists; reflexivity |]. split; [reflexivity |].
  do 3 eexists. split; [reflexivity |]. intros pool. repeat split; discriminate.
Qed.

(** C9. Closing a tracked handle always deletes the map entry of the
    handle's database name and returns nil, whatever that entry refers to.
    So when a handle has been closed and a later [Connect] has registered a
    new pool under the same name, closing the old handle once more removes
    the entry of the new pool while the new pool stays open. *)
Theorem stale_Close_drops_newer_entry w hs c ctx c2 w2 :
  Reachable w hs -> In c hs ->
  Connect ctx (dbName c) (snd (DatabaseConnection_Close c w)) = ((Some c2, None), w2) ->
  let r := DatabaseConnection_Close c w2 in
  (forall w0, DatabaseConnection_Close c w0
              = (None, setPools (delete (dbName c) (pools (prov w0)))
                                (PoolClose (Pool c) w0))) /\
  pools (prov w2) !! dbName c = Some (Pool c2) /\
  Pool c2 <> Pool c /\
  fst r = None /\
  pools (prov (snd r)) = delete (dbName c) (pools (prov w2)) /\
  pools (prov (snd r)) !! dbName c = None /\
  (exists o, heap (snd r) !! Pool c2 = Some o /\ closed o = false) /\
  ~ In (EvPoolClose (Pool c2))
       (firstn (length (trace (snd r)) - length (trace w)) (trace (snd r))).
Proof.
  intros Hr Hin HC r. subst r.
  pose proof (Reachable_handle _ _ _ Hr Hin) as (Hc1 & Hc2 & Hc3).
  rewrite (DatabaseConnection_Close_tracked c w Hc1) in HC. cbn [snd] in HC.
  set (w1 := setPools _ _) in HC.
  assert (Hreg1 : pools (prov w1) !! dbName c = None).
  { subst w1. simpl. apply lookup_delete_eq. }
  assert (Hlen : length (heap w1) = length (heap w)).
  { subst w1. simpl. apply length_alter. }
  destruct (Connect_unregistered_success _ _ _ _ _ Hreg1 HC)
    as (Hpool & (config & Hheap) & Hpools & ev1 & ev2 & ev3 & Htr & Hev).
  assert (Hne : Pool c2 <> Pool c) by lia.
  split; [intros w0; apply DatabaseConnection_Close_tracked, Hc1 |].
  rewrite (DatabaseConnection_Close_tracked c w2 Hc1). cbn [fst snd].
  split; [rewrite Hpools, Hpool; apply lookup_insert_eq |].
  split; [exact Hne |]. split; [reflexivity |].
  split; [reflexivity |]. split; [apply lookup_delete_eq |].
  split.
  - exists (mkPool config false). split; [| reflexivity]. simpl.
    rewrite list_lookup_alter_ne by (intros Heq; apply Hne; symmetry; exact Heq).
    rewrite Hheap, Hpool, lookup_app_r by lia. rewrite Nat.sub_diag. reflexivity.
  - simpl. rewrite Htr. subst w1. simpl.
    replace (S (S (S (S (S (S (length (trace w))))))) - length (trace w))%nat
      with 6%nat by lia.
    simpl.
    intros [Heq | [Heq | [Heq | [Heq | [Heq | [Heq | []]]]]]];
      try discriminate Heq;
      try (injection Heq as Heq; apply Hne; symmetry; exact Heq);
      try (destruct (Hev (Pool c2)) as (? & ? & ?); contradiction).
Qed.

End Sequential.

Section Concurrent.
Context {DT : DriverTypes} {E : Environment}.

Local Open Scope nat_scope.

(** ** Steps of a goroutine *)

Lemma stepCaller_cases i s s' :
  stepCaller i s = Some s' ->
  exists c, callers s !! i = Some c /\
    ( (c_pc c = PcStart /\ writer s = false /\
       s' = mkSystem (world s) (S (readers s)) false
                     (<[i := setPc PcRLocked c]> (callers s)))
    \/ (c_pc c = PcRLocked /\
        s' = mkSystem (world s) (Nat.pred (readers s)) (writer s)
               (<[i := setPc match pools (prov (world s)) !! c_name c with
                             | Some pool => PcDone (Some (trackedConn pool (c_name c)), None)
                             | None => PcWantLock
                             end c]> (callers s)))
    \/ (c_pc c = PcWantLock /\ writer s = false /\ readers s = 0 /\
        s' = mkSystem (world s) 0 true (<[i := setPc PcLocked c]> (callers s)))
    \/ (c_pc c = PcLocked /\
        s' = mkSystem (snd (connectLocked (c_ctx c) (c_name c) (world s)))
               (readers s) false
               (<[i := setPc (PcDone (fst (connectLocked (c_ctx c) (c_name c) (world s)))) c]>
                  (callers s))) ).
Proof.
  unfold stepCaller. intros Hstep.
  destruct (callers s !! i) as [c |] eqn:Hi; [| discriminate].
  exists c. split; [reflexivity |].
  destruct (c_pc c) eqn:Hpc.
  - destruct (writer s) eqn:Hw; [discriminate |].
    injection Hstep as <-. left. auto.
  - injection Hstep as <-. right; left. auto.
  - destruct (writer s) eqn:Hw; [discriminate |].
    destruct (Nat.eqb_spec (readers s) 0) as [Hz |]; [| discriminate].
    injection Hstep as <-. right; right; left. rewrite Hz. auto.
  - injection Hstep as <-. right; right; right. auto.
  - discriminate.
Qed.

Lemma total_insert f (l : list Caller) i x y :
  l !! i = Some x -> total f (<[i := y]> l) + f x = total f l + f y.
Proof.
  revert i. induction l as [| z l IH]; intros [| i] Hi; simpl in *; try discriminate.
  - injection Hi as ->. lia.
  - specialize (IH i Hi). lia.
Qed.

Lemma total_pos f (l : list Caller) :
  0 < total f l -> exists i x, l !! i = Some x /\ 0 < f x.
Proof.
  induction l as [| z l IH]; simpl; [lia |].
  intros Hpos. destruct (f z) eqn:Hz.
  - destruct IH as (i & x & Hi & Hx); [lia |]. exists (S i), x. auto.
  - exists 0, z. simpl. split; [reflexivity | lia].
Qed.

(** ** The mutex *)

Lemma lockOK_step i s s' :
  lockOK s -> stepCaller i s = Some s' -> lockOK s'.
Proof.
  intros (Hrd & Hwr & Hex) Hstep.
  apply stepCaller_cases in Hstep as (c & Hi & Hcase).
  pose proof (total_insert holdsRead (callers s) i c) as Tr.
  pose proof (total_insert holdsWrite (callers s) i c) as Tw.
  unfold lockOK.
  destruct Hcase as [(Hpc & Hw & ->) | [(Hpc & ->) | [(Hpc & Hw & Hz & ->) | (Hpc & ->)]]];
    simpl;
    match goal with |- context [setPc ?pc c] =>
      specialize (Tr (setPc pc c) Hi); specialize (Tw (setPc pc c) Hi) end;
    unfold holdsRead, holdsWrite in *; simpl in Tr, Tw; rewrite Hpc in Tr, Tw.
  - rewrite Hw in Hwr. repeat split; [lia | lia | discriminate].
  - assert (Tr' : total (fun c0 => match c_pc c0 with PcRLocked => 1 | _ => 0 end)
                        (<[i := setPc match pools (prov (world s)) !! c_name c with
                                      | Some pool =>
                                          PcDone (Some (trackedConn pool (c_name c)), None)
                                      | None => PcWantLock
                                      end c]> (callers s)) + 1
                  = total (fun c0 => match c_pc c0 with PcRLocked => 1 | _ => 0 end)
                          (callers s))
      by (destruct (pools (prov (world s)) !! c_name c); lia).
    assert (Tw' : total (fun c0 => match c_pc c0 with PcLocked => 1 | _ => 0 end)
                        (<[i := setPc match pools (prov (world s)) !! c_name c with
                                      | Some pool =>
                                          PcDone (Some (trackedConn pool (c_name c)), None)
                                      | None => PcWantLock
                                      end c]> (callers s))
                  = total (fun c0 => match c_pc c0 with PcLocked => 1 | _ => 0 end)
                          (callers s))
      by (destruct (pools (prov (world s)) !! c_name c); lia).
    repeat split; [lia | lia |].
    intros Hw. specialize (Hex Hw). lia.
  - rewrite Hw in Hwr. repeat split; lia.
  - destruct (writer s); repeat split; try lia; discriminate.
Qed.

Lemma work_step i s s' :
  stepCaller i s = Some s' ->
  total (fun c => remaining (c_pc c)) (callers s')
  < total (fun c => remaining (c_pc c)) (callers s).
Proof.
  intros Hstep.
  apply stepCaller_cases in Hstep as (c & Hi & Hcase).
  pose proof (total_insert (fun c => remaining (c_pc c)) (callers s) i c) as T.
  destruct Hcase as [(Hpc & Hw & ->) | [(Hpc & ->) | [(Hpc & Hw & Hz & ->) | (Hpc & ->)]]];
    simpl;
    match goal with |- context [setPc ?pc c] => specialize (T (setPc pc c) Hi) end;
    simpl in T; rewrite Hpc in T; simpl in T.
  - lia.
  - destruct (pools (prov (world s)) !! c_name c); simpl in T; lia.
  - lia.
  - lia.
Qed.

(** A system whose mutex is consistent is never stuck before everybody has
    returned. *)
Lemma lockOK_progress s :
  lockOK s -> blocked s -> allReturned s.
Proof.
  intros (Hrd & Hwr & Hex) Hblocked.
  assert (Hnowriter : writer s = false).
  { destruct (writer s) eqn:Hw; [| reflexivity].
    destruct (total_pos holdsWrite (callers s)) as (j & x & Hj & Hx); [lia |].
    specialize (Hblocked j). unfold stepCaller in Hblocked. rewrite Hj in Hblocked.
    unfold holdsWrite in Hx. destruct (c_pc x); try lia. discriminate. }
  assert (Hnoreader : readers s = 0).
  { destruct (readers s) eqn:Hr; [reflexivity |].
    destruct (total_pos holdsRead (callers s)) as (j & x & Hj & Hx); [lia |].
    specialize (Hblocked j). unfold stepCaller in Hblocked. rewrite Hj in Hblocked.
    unfold holdsRead in Hx. destruct (c_pc x); try lia. discriminate. }
  apply Forall_lookup. intros i c Hi.
  specialize (Hblocked i). unfold stepCaller in Hblocked.
  rewrite Hi, Hnowriter, Hnoreader in Hblocked. unfold result.
  destruct (c_pc c); simpl in Hblocked; try discriminate. eexists; reflexivity.
Qed.

(** ** Who is calling *)




(** ** The registry during the race *)





(** ** Whole runs *)





End Concurrent.

(** * The theorems on the concrete driver *)

Section Samples.
#[local] Existing Instance sampleTypes.
#[local] Existing Instance sampleEnv.

Local Open Scope nat_scope.

Lemma sampleConnected_reachable :
  Reachable sampleConnected [sampleConn].
Proof.
  exact (reach_Connect (sampleWorld sampleConnString []) [] ctxBackground "postgres"
           (reach_new sampleConnString [] [] 0)).
Defined.

Lemma Connect_reuses_registered_pool_witness :
  pools (prov sampleConnected) !! "postgres" = Some 0 /\
  Connect ctxExpiring "postgres" sampleConnected
  = ((Some (mkConn 0 (Some thisProvider) "postgres"), None), sampleConnected).
Proof.
  assert (Hreg : pools (prov sampleConnected) !! "postgres" = Some 0)
    by (vm_compute; reflexivity).
  split; [exact Hreg |].
  exact (proj1 (Connect_reuses_registered_pool ctxExpiring "postgres" sampleConnected 0 Hreg)).
Defined.


Lemma Connect_copies_pool_settings_witness :
  pools (prov (sampleWorld sampleConnString [CallWithMinConns 2%Z])) !! "postgres" = None /\
  Connect ctxBackground "postgres" (sampleWorld sampleConnString [CallWithMinConns 2%Z])
  = ((Some sampleConn, None),
     snd (Connect ctxBackground "postgres"
            (sampleWorld sampleConnString [CallWithMinConns 2%Z]))) /\
  exists config,
    heap (snd (Connect ctxBackground "postgres"
                 (sampleWorld sampleConnString [CallWithMinConns 2%Z]))) !! 0
    = Some (mkPool config false) /\
    MinConns config = 2%Z /\ MaxConnLifetime config = 0%Z /\ MaxConns config = 4%Z.
Proof.
  assert (Habs : pools (prov (sampleWorld sampleConnString [CallWithMinConns 2%Z]))
                   !! "postgres" = None) by (vm_compute; reflexivity).
  assert (HC : Connect ctxBackground "postgres"
                 (sampleWorld sampleConnString [CallWithMinConns 2%Z])
               = ((Some sampleConn, None),
                  snd (Connect ctxBackground "postgres"
                         (sampleWorld sampleConnString [CallWithMinConns 2%Z]))))
    by (vm_compute; reflexivity).
  split; [exact Habs |]. split; [exact HC |].
  destruct (Connect_copies_pool_settings _ _ _ _ _ Habs HC)
    as (parsed & ds1 & config & Hparse & Hheap & _ & Hmin & Hlife & _ & _ & Hmax & _).
  exists config. split; [exact Hheap |]. split; [exact Hmin |]. split; [exact Hlife |].
  rewrite Hmax. vm_compute in Hparse. injection Hparse as <- _. reflexivity.
Defined.

Lemma Connect_validates_MaxConns_witness :
  Reachable (sampleWorld sampleConnString [CallWithMaxConns (-1)%Z]) [] /\
  snd (fst (Connect ctxBackground "postgres"
              (sampleWorld sampleConnString [CallWithMaxConns (-1)%Z])))
  = Some (errorString "MaxConns must be >= 1, got -1").
Proof.
  assert (Hr : Reachable (sampleWorld sampleConnString [CallWithMaxConns (-1)%Z]) [])
    by exact (reach_new sampleConnString [CallWithMaxConns (-1)%Z] [] 0).
  split; [exact Hr |].
  destruct (proj1 (Connect_validates_MaxConns
                     (sampleWorld sampleConnString [CallWithMaxConns (-1)%Z]) []
                     ctxBackground "postgres" Hr))
    as (_ & _ & _ & _ & [(parsed & ds1 & _ & He) | (err & ds1 & Hparse & _)]).
  - vm_compute. discriminate.
  - vm_compute. reflexivity.
  - exact He.
  - vm_compute in Hparse. discriminate Hparse.
Defined.

(** C4, counterexamples.  With [MaxConns = -1] and a connection string
    that does not parse, [Connect] reports the parse error, not the
    validation error.  With [MaxConns] left at zero and a connection string
    that sets [pool_max_conns=7], the pool is built with 7 connections, not
    with the driver's default. *)
Lemma MaxConns_check_comes_after_parsing :
  (exists e,
     fst (Connect ctxBackground "postgres"
            (sampleWorld badConnString [CallWithMaxConns (-1)%Z]))
     = (None, Some e) /\
     Error e = "failed to parse connection string: cannot parse connection string" /\
     e <> Errorf_MaxConns (-1)) /\
  (exists config : @Config sampleTypes,
     MaxConns (poolConfig (prov (sampleWorld paramConnString []))) = 0%Z /\
     @Connect sampleTypes paramEnv ctxBackground "app" (sampleWorld paramConnString [])
     = ((Some (trackedConn 0%nat "app"), None),
        @mkWorld sampleTypes
          (mkProvider paramConnString zeroConfig {[ "app" := 0%nat ]})
          [mkPool config false] 3%nat
          [EvPing ctxBackground 0%nat; EvConnectConfig ctxBackground config;
           EvParseConfig (paramConnString "app"); EvConnectionString "app"]) /\
     MaxConns config = 7%Z /\
     MaxConns config <> sampleDefaultMaxConns /\
     fst (paramParseConfig 0%nat (sampleConnString "app"))
     = inl (@mkConfig sampleTypes sampleDefaultMaxConns 0%Z 3600%Z 1800%Z None
              (Some (sampleConnString "app")))).
Proof.
  split.
  - eexists. split; [vm_compute; reflexivity |].
    split; [reflexivity | discriminate].
  - eexists. split; [reflexivity |].
    split; [vm_compute; reflexivity |].
    split; [reflexivity |].
    split; [discriminate | reflexivity].
Qed.

Lemma Close_then_Connect_rebuilds_witness :
  Reachable sampleConnected [sampleConn] /\ In sampleConn [sampleConn] /\
  fst (Connect ctxBackground "postgres"
         (snd (DatabaseConnection_Close sampleConn sampleConnected)))
  = (Some (trackedConn 1 "postgres"), None).
Proof.
  split; [exact sampleConnected_reachable |].
  split; [left; reflexivity |].
  refine (proj1 (proj2 (proj2 (proj2 (proj2 (proj2 (proj2
            (Close_then_Connect_rebuilds sampleConnected [sampleConn] sampleConn
               ctxBackground sampleConnected_reachable (or_introl eq_refl))))))))
            (mkConfig 4 0 3600 1800 None (Some "postgres://localhost/postgres"))
            4 (mkConfig 4 0 0 0 None (Some "postgres://localhost/postgres"))
            5 6 _ _ _ _);
    vm_compute; reflexivity.
Defined.

(** C5, counterexample: a handle returned by [Connect] is closed, and the
    next [Connect] for the same name, made with a cancelled context, returns
    an error and builds no pool. *)
Lemma Connect_after_Close_may_build_nothing :
  fst (Connect ctxBackground "postgres" (sampleWorld sampleConnString []))
  = (Some sampleConn, None) /\
  fst (DatabaseConnection_Close sampleConn sampleConnected) = None /\
  exists e,
    fst (Connect ctxCancelled "postgres"
           (snd (DatabaseConnection_Close sampleConn sampleConnected)))
    = (None, Some e) /\
    Error e = "failed to create connection pool: context canceled" /\
    heap (snd (Connect ctxCancelled "postgres"
                 (snd (DatabaseConnection_Close sampleConn sampleConnected))))
    = heap (snd (DatabaseConnection_Close sampleConn sampleConnected)) /\
    length (heap (snd (DatabaseConnection_Close sampleConn sampleConnected))) = 1 /\
    pools (prov (snd (Connect ctxCancelled "postgres"
                        (snd (DatabaseConnection_Close sampleConn sampleConnected)))))
      !! "postgres" = None.
Proof.
  split; [vm_compute; reflexivity |].
  split; [reflexivity |].
  eexists. split; [vm_compute; reflexivity |].
  repeat split; vm_compute; reflexivity.
Qed.

Lemma Close_idempotent_witness :
  heap sampleConnected !! 0 = Some (mkPool (mkConfig 4 0 0 0 None
                                    (Some "postgres://localhost/postgres")) false) /\
  fst (closeTimes 3 sampleConn sampleConnected) = [None; None; None] /\
  heap (snd (closeTimes 3 sampleConn sampleConnected))
  = heap (snd (DatabaseConnection_Close sampleConn sampleConnected)).
Proof.
  split; [vm_compute; reflexivity |].
  destruct (Close_idempotent sampleConn sampleConnected 2)
    as (_ & _ & Herr & _ & Hheap & _).
  split.
  - change (closeTimes 3 sampleConn sampleConnected)
      with (fst (DatabaseConnection_Close sampleConn sampleConnected)
              :: fst (closeTimes 2 sampleConn
                        (snd (DatabaseConnection_Close sampleConn sampleConnected))),
            snd (closeTimes 2 sampleConn
                   (snd (DatabaseConnection_Close sampleConn sampleConnected)))).
    cbn [fst]. rewrite Herr. reflexivity.
  - exact Hheap.
Defined.

Lemma ConnectionProvider_Close_closes_all_witness :
  Reachable sampleConnected [sampleConn] /\
  NoDup (closedByClose sampleConnected) /\
  pools (prov (ConnectionProvider_Close sampleConnected)) = ∅.
Proof.
  split; [exact sampleConnected_reachable |].
  pose proof (ConnectionProvider_Close_closes_all sampleConnected) as Hclose.
  cbv zeta in Hclose.
  destruct Hclose as (Hempty & _ & _ & _ & _ & _ & _ & _ & _ & Hreach).
  split; [exact (proj1 (Hreach [sampleConn] sampleConnected_reachable)) | exact Hempty].
Defined.

Lemma stale_Close_drops_newer_entry_witness :
  Reachable sampleConnected [sampleConn] /\ In sampleConn [sampleConn] /\
  Connect ctxBackground (dbName sampleConn)
          (snd (DatabaseConnection_Close sampleConn sampleConnected))
  = ((Some (trackedConn 1 "postgres"), None),
     snd (Connect ctxBackground "postgres"
            (snd (DatabaseConnection_Close sampleConn sampleConnected)))) /\
  pools (prov (snd (DatabaseConnection_Close sampleConn
                      (snd (Connect ctxBackground "postgres"
                              (snd (DatabaseConnection_Close sampleConn sampleConnected)))))))
    !! "postgres" = None.
Proof.
  assert (HC : Connect ctxBackground (dbName sampleConn)
                 (snd (DatabaseConnection_Close sampleConn sampleConnected))
               = ((Some (trackedConn 1 "postgres"), None),
                  snd (Connect ctxBackground "postgres"
                         (snd (DatabaseConnection_Close sampleConn sampleConnected)))))
    by (vm_compute; reflexivity).
  split; [exact sampleConnected_reachable |].
  split; [left; reflexivity |]. split; [exact HC |].
  pose proof (stale_Close_drops_newer_entry sampleConnected [sampleConn] sampleConn
                ctxBackground _ _ sampleConnected_reachable (or_introl eq_refl) HC) as Hstale.
  cbv zeta in Hstale.
  exact (proj1 (proj2 (proj2 (proj2 (proj2 (proj2 Hstale)))))).
Defined.



End Samples.

(** * Further properties of the provider *)

Section Effects.
Context {DT : DriverTypes} {E : Environment}.

Implicit Types (w : World) (c : DatabaseConnection) (ctx : Ctx)
               (databaseName : string).

Local Open Scope nat_scope.

(** ** What one Connect changes *)

Lemma Connect_effect ctx databaseName w :
  let w' := snd (Connect ctx databaseName w) in
  connectionStringFunc (prov w') = connectionStringFunc (prov w) /\
  poolConfig (prov w') = poolConfig (prov w) /\
  (forall other, other <> databaseName ->
     pools (prov w') !! other = pools (prov w) !! other) /\
  (forall name pool, pools (prov w) !! name = Some pool ->
     pools (prov w') !! name = Some pool) /\
  (exists extra, heap w' = heap w ++ extra /\ length extra <= 1) /\
  (exists evs, trace w' = evs ++ trace w /\
     callsOfConnect ctx databaseName (connectionStringFunc (prov w) databaseName)
                    (length (heap w)) evs).
Proof.
  destruct (pools (prov w) !! databaseName) as [pool |] eqn:Hreg.
  { rewrite (Connect_registered _ _ _ _ Hreg). cbn [snd].
    split_and!; auto.
    - exists []. rewrite app_nil_r. auto.
    - exists []. split; [reflexivity | left; reflexivity]. }
  pose proof (Connect_outcome ctx databaseName w Hreg) as Hout.
  destruct (Connect ctx databaseName w) as [r w'] eqn:HC. cbn [fst snd] in Hout |- *.
  inversion Hout; subst r w'; cbn [prov heap trace connectionStringFunc poolConfig pools].
  - split_and!; auto.
    + exists []. rewrite app_nil_r. auto.
    + exists [EvParseConfig (connectionStringFunc (prov w) databaseName);
              EvConnectionString databaseName].
      split; [reflexivity |]. right; left. reflexivity.
  - split_and!; auto.
    + exists []. rewrite app_nil_r. auto.
    + exists [EvParseConfig (connectionStringFunc (prov w) databaseName);
              EvConnectionString databaseName].
      split; [reflexivity |]. right; left. reflexivity.
  - split_and!; auto.
    + exists []. rewrite app_nil_r. auto.
    + exists [EvConnectConfig ctx config;
              EvParseConfig (connectionStringFunc (prov w) databaseName);
              EvConnectionString databaseName].
      split; [reflexivity |]. right; right; left. eauto.
  - split_and!; auto.
    + eexists. split; [reflexivity |]. simpl. lia.
    + exists [EvPoolClose (length (heap w)); EvPing ctx (length (heap w));
              EvConnectConfig ctx config;
              EvParseConfig (connectionStringFunc (prov w) databaseName);
              EvConnectionString databaseName].
      split; [reflexivity |]. right; right; right; right. eauto.
  - split_and!; auto.
    + intros other Hne. apply lookup_insert_ne. congruence.
    + intros name pool Hn. rewrite lookup_insert_ne; [exact Hn |]. congruence.
    + eexists. split; [reflexivity |]. simpl. lia.
    + exists [EvPing ctx (length (heap w)); EvConnectConfig ctx config;
              EvParseConfig (connectionStringFunc (prov w) databaseName);
              EvConnectionString databaseName].
      split; [reflexivity |]. right; right; right; left. eauto.
Qed.

(** X1. [Connect] for one name leaves the entries of all other names as
    they are, never replaces or removes an entry that exists, keeps the
    provider's builder and pool configuration, keeps every pool object that
    existed exactly as it was, and adds at most one pool object. *)
Theorem Connect_touches_only_its_name ctx databaseName w :
  let w' := snd (Connect ctx databaseName w) in
  connectionStringFunc (prov w') = connectionStringFunc (prov w) /\
  poolConfig (prov w') = poolConfig (prov w) /\
  (forall other, other <> databaseName ->
     pools (prov w') !! other = pools (prov w) !! other) /\
  (forall name pool, pools (prov w) !! name = Some pool ->
     pools (prov w') !! name = Some pool) /\
  (forall pool o, heap w !! pool = Some o -> heap w' !! pool = Some o) /\
  length (heap w) <= length (heap w') <= S (length (heap w)).
Proof.
  intros w'. subst w'.
  destruct (Connect_effect ctx databaseName w)
    as (Hf & Hpc & Hother & Hkeep & (extra & Hheap & Hlen) & _).
  repeat split; try assumption.
  - intros pool o Ho. rewrite Hheap. apply lookup_app_l_Some, Ho.
  - rewrite Hheap, length_app. lia.
  - rewrite Hheap, length_app. lia.
Qed.

(** X2. One call of [Connect] never repeats a step, and what it calls is
    decided by what the driver answers.  When the pool is found it makes no
    call at all.  Otherwise it calls the builder and [ParseConfig] once; if
    parsing or the [MaxConns] check fails it stops there; else it calls
    [ConnectConfig] once and stops if that fails; else it calls [Ping] once;
    and it closes the pool it has just built exactly when that ping has
    failed: after a successful ping no [Close] is called. *)
Theorem Connect_never_retries ctx databaseName w :
  let connString := connectionStringFunc (prov w) databaseName in
  let tr1 := EvParseConfig connString :: EvConnectionString databaseName :: trace w in
  let calls := trace (snd (Connect ctx databaseName w)) in
  (forall pool, pools (prov w) !! databaseName = Some pool ->
     calls = trace w /\ env (snd (Connect ctx databaseName w)) = env w) /\
  (pools (prov w) !! databaseName = None ->
   (forall err ds1,
       ParseConfig (env w) connString = (inr err, ds1) -> calls = tr1) /\
   (forall parsed ds1,
       ParseConfig (env w) connString = (inl parsed, ds1) ->
       MaxConns (poolConfig (prov w)) <> 0%Z -> (MaxConns (poolConfig (prov w)) < 1)%Z ->
       calls = tr1) /\
   (forall parsed ds1 config err ds2,
       ParseConfig (env w) connString = (inl parsed, ds1) ->
       applyPoolConfig (poolConfig (prov w)) parsed = inl config ->
       ConnectConfig ds1 ctx config = (Some err, ds2) ->
       calls = EvConnectConfig ctx config :: tr1) /\
   (forall parsed ds1 config ds2 err ds3,
       ParseConfig (env w) connString = (inl parsed, ds1) ->
       applyPoolConfig (poolConfig (prov w)) parsed = inl config ->
       ConnectConfig ds1 ctx config = (None, ds2) ->
       Ping ds2 ctx (length (heap w)) = (Some err, ds3) ->
       calls = EvPoolClose (length (heap w)) :: EvPing ctx (length (heap w))
                 :: EvConnectConfig ctx config :: tr1) /\
   (forall parsed ds1 config ds2 ds3,
       ParseConfig (env w) connString = (inl parsed, ds1) ->
       applyPoolConfig (poolConfig (prov w)) parsed = inl config ->
       ConnectConfig ds1 ctx config = (None, ds2) ->
       Ping ds2 ctx (length (heap w)) = (None, ds3) ->
       calls = EvPing ctx (length (heap w)) :: EvConnectConfig ctx config :: tr1)).
Proof.
  intros connString tr1 calls. subst connString tr1 calls. split.
  - intros pool Hreg. rewrite (Connect_registered _ _ _ _ Hreg). split; reflexivity.
  - intros Habs.
    destruct (Connect_by_stage ctx databaseName w Habs) as (F1 & F2 & F3 & F4 & F5).
    cbv zeta in F1, F2, F3, F4, F5.
    split; [intros err ds1 Hp; rewrite (F1 _ _ Hp); reflexivity |].
    split; [intros parsed ds1 Hp Hnz Hlt; rewrite (F2 _ _ Hp Hnz Hlt); reflexivity |].
    split; [intros parsed ds1 config err ds2 Hp Ha Hcc;
            rewrite (F3 _ _ _ _ _ Hp Ha Hcc); reflexivity |].
    split; [intros parsed ds1 config ds2 err ds3 Hp Ha Hcc Hpg;
            rewrite (F4 _ _ _ _ _ _ Hp Ha Hcc Hpg); reflexivity |].
    intros parsed ds1 config ds2 ds3 Hp Ha Hcc Hpg.
    rewrite (F5 _ _ _ _ _ Hp Ha Hcc Hpg). reflexivity.
Qed.

(** ** What the reachable states guarantee *)

(** X3. In every state that the provider's API can produce, each map entry
    points to a pool object that exists and is open, no pool is registered
    under two names, and every handle that [Connect] has returned refers to
    the provider, to a pool object that exists, and to a pool that is
    registered, if at all, under the handle's own database name. *)
Theorem reachable_registry_sound w hs :
  Reachable w hs ->
  (forall databaseName pool,
      pools (prov w) !! databaseName = Some pool ->
      exists o, heap w !! pool = Some o /\ closed o = false) /\
  (forall name1 name2 pool,
      pools (prov w) !! name1 = Some pool ->
      pools (prov w) !! name2 = Some pool -> name1 = name2) /\
  (forall c, In c hs ->
      provider c = Some thisProvider /\
      Pool c < length (heap w) /\
      forall databaseName,
        pools (prov w) !! databaseName = Some (Pool c) -> databaseName = dbName c).
Proof.
  intros Hr. destruct (Reachable_invariant _ _ Hr) as ((Hopen & Hinj) & Hhs & _).
  split; [exact Hopen |]. split; [exact Hinj |].
  intros c Hin. rewrite Forall_forall in Hhs. apply Hhs, list_elem_of_In, Hin.
Qed.

Lemma Reachable_after_Connect w hs ctx databaseName c w' :
  Reachable w hs ->
  Connect ctx databaseName w = ((Some c, None), w') ->
  Reachable w' (c :: hs).
Proof.
  intros Hr HC. pose proof (reach_Connect w hs ctx databaseName Hr) as Hr'.
  rewrite HC in Hr'. exact Hr'.
Qed.

Lemma Connect_open_pool w hs ctx databaseName c w' :
  Reachable w hs ->
  Connect ctx databaseName w = ((Some c, None), w') ->
  c = trackedConn (Pool c) databaseName /\
  pools (prov w') !! databaseName = Some (Pool c) /\
  exists config, heap w' !! Pool c = Some (mkPool config false).
Proof.
  intros Hr HC.
  destruct (Connect_success_registered _ _ _ _ _ HC) as [Hc Hreg].
  split; [exact Hc |]. split; [exact Hreg |].
  destruct (Reachable_invariant _ _ (Reachable_after_Connect _ _ _ _ _ _ Hr HC))
    as ((Hopen & _) & _ & _).
  destruct (Hopen _ _ Hreg) as ([config cl] & Ho & Hcl). simpl in Hcl. subst cl.
  exists config. exact Ho.
Qed.

(** X4. In every reachable state a successful [Connect] returns a handle
    whose pool is open, exists in the heap and is the one registered under
    the requested name; the handle refers to the provider and carries that
    name. *)
Theorem Connect_returns_open_pool w hs ctx databaseName c w' :
  Reachable w hs ->
  Connect ctx databaseName w = ((Some c, None), w') ->
  provider c = Some thisProvider /\ dbName c = databaseName /\
  pools (prov w') !! databaseName = Some (Pool c) /\
  exists config, heap w' !! Pool c = Some (mkPool config false).
Proof.
  intros Hr HC.
  destruct (Connect_open_pool _ _ _ _ _ _ Hr HC) as (Hc & Hreg & Hopen).
  rewrite Hc at 1 2. auto.
Qed.

(** X5. Two successful [Connect] calls in a row for one name return handles
    on the same pool, and closing the first handle closes the pool under the
    second: afterwards the second handle's pool is closed and the name is
    unregistered, while closing the second handle still returns nil. *)
Theorem handles_share_one_pool w hs ctx1 ctx2 databaseName c1 c2 w1 w2 :
  Reachable w hs ->
  Connect ctx1 databaseName w = ((Some c1, None), w1) ->
  Connect ctx2 databaseName w1 = ((Some c2, None), w2) ->
  let w3 := snd (DatabaseConnection_Close c1 w2) in
  c2 = c1 /\ w2 = w1 /\
  (exists config, heap w2 !! Pool c2 = Some (mkPool config false)) /\
  (exists config, heap w3 !! Pool c2 = Some (mkPool config true)) /\
  pools (prov w3) !! databaseName = None /\
  fst (DatabaseConnection_Close c2 w3) = None /\
  heap (snd (DatabaseConnection_Close c2 w3)) = heap w3.
Proof.
  intros Hr HC1 HC2 w3. subst w3.
  destruct (Connect_open_pool w hs ctx1 databaseName c1 w1 Hr HC1)
    as (Hc1 & Hreg1 & config & Ho).
  rewrite (Connect_registered _ _ _ _ Hreg1) in HC2.
  injection HC2 as <- <-.
  split; [symmetry; exact Hc1 |]. split; [reflexivity |].
  rewrite <- Hc1.
  split; [exists config; exact Ho |].
  assert (Htr : provider c1 = Some thisProvider) by (rewrite Hc1; reflexivity).
  assert (Hname : dbName c1 = databaseName) by (rewrite Hc1; reflexivity).
  rewrite (DatabaseConnection_Close_tracked c1 w1 Htr). cbn [snd].
  assert (Hclosed : heap (setPools (delete (dbName c1) (pools (prov w1)))
                                   (PoolClose (Pool c1) w1)) !! Pool c1
                    = Some (mkPool config true)).
  { simpl. rewrite (lookup_alter_closed _ _ _ Ho). reflexivity. }
  split; [exists config; exact Hclosed |].
  split; [simpl; rewrite Hname; apply lookup_delete_eq |].
  rewrite (DatabaseConnection_Close_tracked c1 _ Htr). cbn [fst snd].
  split; [reflexivity |].
  cbn [heap setPools PoolClose]. apply alter_close_twice.
Qed.

(** ** Closing *)

(** X6. Closing a handle closes the handle's pool and nothing else: it
    makes one [Close] call on that pool and no other driver call, leaves
    every other pool object and the number of pool objects as they are,
    keeps the builder and the pool configuration, and removes at most the
    entry of the handle's name (none at all for a handle without
    provider). *)
Theorem DatabaseConnection_Close_touches_only_its_own c w :
  let w' := snd (DatabaseConnection_Close c w) in
  trace w' = EvPoolClose (Pool c) :: trace w /\
  env w' = env w /\
  connectionStringFunc (prov w') = connectionStringFunc (prov w) /\
  poolConfig (prov w') = poolConfig (prov w) /\
  length (heap w') = length (heap w) /\
  (forall pool, pool <> Pool c -> heap w' !! pool = heap w !! pool) /\
  (forall other, other <> dbName c ->
     pools (prov w') !! other = pools (prov w) !! other) /\
  (provider c = None -> prov w' = prov w).
Proof.
  intros w'. subst w'. unfold DatabaseConnection_Close.
  destruct (provider c) as [p |]; cbn [snd setPools PoolClose prov heap env trace
    connectionStringFunc poolConfig pools];
    split_and!; try reflexivity; try (apply length_alter).
  - intros pool Hne. apply list_lookup_alter_ne. congruence.
  - intros other Hne. apply lookup_delete_ne. congruence.
  - discriminate.
  - intros pool Hne. apply list_lookup_alter_ne. congruence.
Qed.

(** X7. A handle without provider that is bound to a registered pool:
    closing it closes the pool but leaves the map entry, so [Connect] for
    that name keeps returning, without error and without any driver call,
    a handle on the closed pool. *)
Theorem untracked_Close_leaves_closed_pool_registered w ctx databaseName c o :
  provider c = None ->
  pools (prov w) !! databaseName = Some (Pool c) ->
  heap w !! Pool c = Some o ->
  let w' := snd (DatabaseConnection_Close c w) in
  fst (DatabaseConnection_Close c w) = None /\
  pools (prov w') !! databaseName = Some (Pool c) /\
  heap w' !! Pool c = Some (mkPool (pool_config o) true) /\
  Connect ctx databaseName w' = ((Some (trackedConn (Pool c) databaseName), None), w').
Proof.
  intros Hnil Hreg Ho w'. subst w'. unfold DatabaseConnection_Close. rewrite Hnil.
  cbn [fst snd]. split; [reflexivity |].
  assert (Hreg' : pools (prov (PoolClose (Pool c) w)) !! databaseName = Some (Pool c))
    by exact Hreg.
  split; [exact Hreg' |]. split.
  - simpl. apply lookup_alter_closed, Ho.
  - apply Connect_registered, Hreg'.
Qed.

Lemma closeAll_lookup l w pool o :
  heap w !! pool = Some o ->
  heap (closeAll l w) !! pool = Some o \/
  heap (closeAll l w) !! pool = Some (closePoolObj o).
Proof.
  intros Ho. destruct (in_dec Nat.eq_dec pool (map snd l)) as [Hin | Hnot].
  - right. apply closeAll_lookup_closed; assumption.
  - left. rewrite closeAll_lookup_other by exact Hnot. exact Ho.
Qed.

(** X8. No operation of the provider removes a pool object, changes the
    configuration it was built from, or reopens it: after [Connect], after a
    handle's [Close] and after the provider's [Close], every pool object
    that existed is still there with the same configuration, and closed if
    it was closed. *)
Theorem pool_objects_persist w pool o :
  heap w !! pool = Some o ->
  (forall ctx databaseName,
      heap (snd (Connect ctx databaseName w)) !! pool = Some o) /\
  (forall c, exists o',
      heap (snd (DatabaseConnection_Close c w)) !! pool = Some o' /\
      pool_config o' = pool_config o /\ (closed o = true -> closed o' = true)) /\
  (exists o',
      heap (ConnectionProvider_Close w) !! pool = Some o' /\
      pool_config o' = pool_config o /\ (closed o = true -> closed o' = true)).
Proof.
  intros Ho. split; [| split].
  - intros ctx databaseName.
    destruct (Connect_effect ctx databaseName w) as (_ & _ & _ & _ & (extra & Hheap & _) & _).
    rewrite Hheap. apply lookup_app_l_Some, Ho.
  - intros c.
    assert (Hheap : heap (snd (DatabaseConnection_Close c w))
                    = alter closePoolObj (Pool c) (heap w)).
    { unfold DatabaseConnection_Close. destruct (provider c); reflexivity. }
    rewrite Hheap. destruct (decide (Pool c = pool)) as [-> | Hne].
    + exists (closePoolObj o). split; [apply lookup_alter_closed, Ho | auto].
    + exists o. split; [rewrite list_lookup_alter_ne by exact Hne; exact Ho | auto].
  - unfold ConnectionProvider_Close. cbn [heap setPools].
    destruct (closeAll_lookup (rangeOrder (env w) (pools (prov w))) w pool o Ho) as [H1 | H1].
    + exists o. auto.
    + exists (closePoolObj o). auto.
Qed.

(** X9. After the provider's [Close] the provider can be used again: a
    [Connect] for any name finds no entry and goes through construction, and
    a handle it returns is bound to a pool object that did not exist before,
    different from the pool of every handle returned earlier, while the
    pools that were registered stay closed. *)
Theorem Connect_after_provider_Close w hs ctx databaseName :
  Reachable w hs ->
  let w1 := ConnectionProvider_Close w in
  let r := fst (Connect ctx databaseName w1) in
  let w2 := snd (Connect ctx databaseName w1) in
  pools (prov w1) !! databaseName = None /\
  (exists evs, trace w2 = evs ++ EvParseConfig (connectionStringFunc (prov w) databaseName)
                              :: EvConnectionString databaseName :: trace w1) /\
  (forall name pool, pools (prov w) !! name = Some pool ->
     exists config, heap w2 !! pool = Some (mkPool config true)) /\
  (forall c2, fst r = Some c2 ->
     snd r = None /\ Pool c2 = length (heap w) /\
     (forall c, In c hs -> Pool c2 <> Pool c) /\
     (exists config, heap w2 !! Pool c2 = Some (mkPool config false)) /\
     pools (prov w2) !! databaseName = Some (Pool c2)).
Proof.
  intros Hr w1 r w2. subst r w2.
  destruct (ConnectionProvider_Close_frame w) as (Hp & Hf & Hpc & He & Hl & Ht).
  fold w1 in Hp, Hf, Hpc, He, Hl, Ht.
  destruct (Reachable_invariant _ _ Hr) as ((Hopen & _) & Hhs & _).
  assert (Hcl1 : forall name pool, pools (prov w) !! name = Some pool ->
            exists config, heap w1 !! pool = Some (mkPool config true)).
  { intros name pool Hn. destruct (Hopen _ _ Hn) as (o & Ho & _).
    exists (pool_config o).
    subst w1. unfold ConnectionProvider_Close. cbn [heap setPools].
    apply (closeAll_lookup_closed _ _ _ _ (proj2 (in_map_iff snd _ pool)
             (ex_intro _ (name, pool) (conj eq_refl (proj2 (rangeOrder_elem _ _ _ _) Hn)))) Ho). }
  clearbody w1.
  assert (Hreg : pools (prov w1) !! databaseName = None)
    by (rewrite Hp; apply lookup_empty).
  split; [exact Hreg |].
  pose proof (Connect_outcome ctx databaseName w1 Hreg) as Hout.
  destruct (Connect_effect ctx databaseName w1) as (_ & _ & _ & _ & (extra & Hheap & _) & _).
  assert (Hclosed : forall name pool, pools (prov w) !! name = Some pool ->
            exists config, heap (snd (Connect ctx databaseName w1)) !! pool
                           = Some (mkPool config true)).
  { intros name pool Hn. destruct (Hcl1 _ _ Hn) as (config & Ho).
    exists config. rewrite Hheap. apply lookup_app_l_Some, Ho. }
  rewrite <- Hf.
  destruct (Connect ctx databaseName w1) as [r w2] eqn:HC.
  cbn [fst snd] in Hout, Hclosed |- *.
  inversion Hout; subst r w2; cbn [fst snd trace heap prov pools];
    (split; [| split; [exact Hclosed |]]);
    try (intros ? [=]; fail).
  - exists []. reflexivity.
  - exists []. reflexivity.
  - eexists [_]. reflexivity.
  - eexists [_; _; _]. reflexivity.
  - eexists [_; _]. reflexivity.
  - intros c2 [= <-]. cbn [Pool trackedConn].
    split; [reflexivity |]. split; [exact Hl |]. split.
    + intros c Hin. rewrite Forall_forall in Hhs.
      destruct (Hhs c (proj2 (list_elem_of_In _ _) Hin)) as (_ & Hlt & _). lia.
    + split; [| apply lookup_insert_eq].
      exists config. rewrite lookup_app_r by lia. rewrite Nat.sub_diag. reflexivity.
Qed.

(** X10. The pool left without an entry by a stale [Close] is out of the
    provider's reach: the provider's [Close] empties the map but does not
    close that pool, which stays open. *)
Theorem orphaned_pool_survives_provider_Close w hs c ctx c2 w2 :
  Reachable w hs -> In c hs ->
  Connect ctx (dbName c) (snd (DatabaseConnection_Close c w)) = ((Some c2, None), w2) ->
  let w3 := snd (DatabaseConnection_Close c w2) in
  let w4 := ConnectionProvider_Close w3 in
  pools (prov w4) = ∅ /\
  ~ In (Pool c2) (closedByClose w3) /\
  exists config,
    heap w3 !! Pool c2 = Some (mkPool config false) /\
    heap w4 !! Pool c2 = Some (mkPool config false).
Proof.
  intros Hr Hin HC w3 w4.
  pose proof (reach_conn_Close w hs c Hr Hin) as Hr1.
  pose proof (Reachable_after_Connect _ _ _ _ _ _ Hr1 HC) as Hr2.
  destruct (Connect_open_pool _ _ _ _ _ _ Hr1 HC) as (_ & Hreg2 & config & Ho2).
  destruct (Reachable_invariant _ _ Hr2) as ((_ & Hinj) & _ & _).
  destruct (Reachable_handle _ _ _ Hr Hin) as (Hc1 & Hc2 & _).
  assert (Hne : Pool c2 <> Pool c).
  { destruct (Connect_unregistered_success ctx (dbName c)
                (snd (DatabaseConnection_Close c w)) c2 w2) as (Hp & _); [| exact HC |].
    - rewrite (DatabaseConnection_Close_tracked c w Hc1). simpl. apply lookup_delete_eq.
    - rewrite Hp, (DatabaseConnection_Close_tracked c w Hc1). simpl.
      rewrite length_alter. lia. }
  assert (Hw3 : w3 = setPools (delete (dbName c) (pools (prov w2))) (PoolClose (Pool c) w2)).
  { subst w3. rewrite (DatabaseConnection_Close_tracked c w2 Hc1). reflexivity. }
  assert (Ho3 : heap w3 !! Pool c2 = Some (mkPool config false)).
  { rewrite Hw3. simpl. rewrite list_lookup_alter_ne by congruence. exact Ho2. }
  assert (Hnot : ~ In (Pool c2) (closedByClose w3)).
  { unfold closedByClose. intros Hin'. apply in_map_iff in Hin' as ([n p] & Hp & Hnp).
    simpl in Hp. subst p. apply rangeOrder_elem in Hnp.
    rewrite Hw3 in Hnp. simpl in Hnp. apply lookup_delete_Some in Hnp as [Hn Hnp].
    apply Hn. eapply Hinj; eassumption. }
  split; [apply (ConnectionProvider_Close_frame w3) |]. split; [exact Hnot |].
  exists config. split; [exact Ho3 |].
  subst w4. unfold ConnectionProvider_Close. cbn [heap setPools].
  rewrite closeAll_lookup_other by exact Hnot. exact Ho3.
Qed.

(** ** Options and the configuration a pool gets *)

Lemma poolConfig_lastSet fn (os : list OptionCall) :
  let pc := poolConfig (NewConnectionProvider fn (map toOption os)) in
  MaxConns pc = default 0%Z (lastSet setsMaxConns os) /\
  MinConns pc = default 0%Z (lastSet setsMinConns os) /\
  MaxConnLifetime pc = default 0%Z (lastSet setsMaxConnLifetime os) /\
  MaxConnIdleTime pc = default 0%Z (lastSet setsMaxConnIdleTime os) /\
  AfterConnect pc = default None (lastSet setsAfterConnect os).
Proof.
  induction os as [| o os IH] using rev_ind.
  { repeat split. }
  rewrite map_app. simpl. rewrite NewConnectionProvider_snoc.
  rewrite !lastSet_snoc. simpl in IH.
  destruct IH as (IH1 & IH2 & IH3 & IH4 & IH5).
  destruct o; simpl; repeat split; assumption.
Qed.

(** X11. Whatever options are given, the new provider has an empty map and
    the builder it was given; and [WithPoolConfig] wipes out every option
    before it: the provider is the one obtained from [WithPoolConfig] and the
    options after it alone. *)
Theorem WithPoolConfig_discards_earlier_options fn (os os' : list OptionCall) config :
  pools (NewConnectionProvider fn (map toOption os)) = ∅ /\
  connectionStringFunc (NewConnectionProvider fn (map toOption os)) = fn /\
  NewConnectionProvider fn (map toOption (os ++ CallWithPoolConfig config :: os'))
  = NewConnectionProvider fn (map toOption (CallWithPoolConfig config :: os')).
Proof.
  destruct (NewConnectionProvider_pools fn os) as [Hp Hf].
  split; [exact Hp |]. split; [exact Hf |].
  unfold NewConnectionProvider in *.
  rewrite map_app, foldl_app. simpl. f_equal.
  unfold WithPoolConfig, setPoolConfig. rewrite Hp, Hf. reflexivity.
Qed.

(** X12. The configuration of a pool built by a provider created with the
    options [os]: [MinConns], the two durations and [AfterConnect] are those
    written by the last option that writes them and zero or nil when none
    does, whatever the connection string asked for; [MaxConns] is the one
    written last by an option unless that is zero or there is none, in which
    case it is the parsed one; everything else comes from the connection
    string. *)
Theorem fresh_provider_pool_settings fn (os : list OptionCall) h ds tr ctx databaseName
    c w' :
  Connect ctx databaseName
          (mkWorld (NewConnectionProvider fn (map toOption os)) h ds tr)
  = ((Some c, None), w') ->
  exists parsed ds1 config,
    ParseConfig ds (fn databaseName) = (inl parsed, ds1) /\
    heap w' !! Pool c = Some (mkPool config false) /\
    MinConns config = default 0%Z (lastSet setsMinConns os) /\
    MaxConnLifetime config = default 0%Z (lastSet setsMaxConnLifetime os) /\
    MaxConnIdleTime config = default 0%Z (lastSet setsMaxConnIdleTime os) /\
    AfterConnect config = default None (lastSet setsAfterConnect os) /\
    MaxConns config = match lastSet setsMaxConns os with
                      | Some n => if Z.eqb n 0 then MaxConns parsed else n
                      | None => MaxConns parsed
                      end /\
    ConnConfig config = ConnConfig parsed.
Proof.
  intros HC.
  destruct (NewConnectionProvider_pools fn os) as [Hp Hf].
  destruct (poolConfig_lastSet fn os) as (H1 & H2 & H3 & H4 & H5).
  set (w := mkWorld _ h ds tr) in HC.
  assert (Hreg : pools (prov w) !! databaseName = None).
  { subst w. cbn [prov]. rewrite Hp. apply lookup_empty. }
  pose proof (Connect_outcome ctx databaseName w Hreg) as Hout.
  rewrite HC in Hout. cbn [fst snd] in Hout.
  inversion Hout; subst c w'.
  match goal with Ha : applyPoolConfig _ _ = inl _ |- _ =>
    apply applyPoolConfig_ok in Ha as [_ Hcfg] end.
  exists parsed, ds1, config.
  match goal with Hparse : ParseConfig _ _ = _ |- _ =>
    subst w; cbn [prov env] in Hparse; rewrite Hf in Hparse;
    split; [exact Hparse |] end.
  split; [cbn [heap Pool trackedConn]; rewrite lookup_app_r by lia;
          rewrite Nat.sub_diag; reflexivity |].
  rewrite Hcfg. cbn [MinConns MaxConnLifetime MaxConnIdleTime AfterConnect MaxConns
                     ConnConfig prov].
  rewrite H1, H2, H3, H4, H5.
  repeat split. destruct (lastSet setsMaxConns os); reflexivity.
Qed.

End Effects.

Section AnyNames.
Context {DT : DriverTypes} {E : Environment}.

Local Open Scope nat_scope.

(** ** Concurrent callers for any names *)

(** What a call of [Connect] can return. *)
Lemma Connect_result_shape ctx databaseName w :
  (forall h e, fst (Connect ctx databaseName w) = (Some h, e) ->
     e = None /\ h = trackedConn (Pool h) databaseName /\
     pools (prov (snd (Connect ctx databaseName w))) !! databaseName = Some (Pool h)) /\
  (forall e, fst (Connect ctx databaseName w) = (None, e) -> e <> None).
Proof.
  destruct (pools (prov w) !! databaseName) as [pool |] eqn:Hreg.
  { rewrite (Connect_registered _ _ _ _ Hreg). cbn [fst snd].
    split; [intros h e [= <- <-]; auto | intros e [=]]. }
  pose proof (Connect_outcome ctx databaseName w Hreg) as Hout.
  destruct (Connect ctx databaseName w) as [r w'] eqn:HC. cbn [fst snd] in Hout |- *.
  inversion Hout; subst r w'; (split; [intros h e [=] | intros e [=]]);
    subst; try discriminate.
  cbn [Pool trackedConn prov pools]. split; [reflexivity |].
  split; [reflexivity | apply lookup_insert_eq].
Qed.

Lemma handlesInv_step w0 i s s' :
  handlesInv w0 s -> stepCaller i s = Some s' -> handlesInv w0 s'.
Proof.
  intros (Hgrow & Hres) Hstep.
  apply stepCaller_cases in Hstep as (c & Hi & Hcase).
  destruct Hcase as [(Hpc & Hw & ->) | [(Hpc & ->) | [(Hpc & Hw & Hz & ->) | (Hpc & ->)]]];
    unfold handlesInv; cbn [world callers].
  - split; [exact Hgrow |]. apply Forall_insert; [exact Hres |].
    split; [intros h e | intros e]; discriminate.
  - split; [exact Hgrow |]. apply Forall_insert; [exact Hres |].
    destruct (pools (prov (world s)) !! c_name c) as [pool |] eqn:Hreg;
      (split; [intros h e | intros e]); unfold result; cbn [c_pc setPc c_name];
      try discriminate.
    intros [= <- <-]. auto.
  - split; [exact Hgrow |]. apply Forall_insert; [exact Hres |].
    split; [intros h e | intros e]; discriminate.
  - rewrite <- Connect_connectLocked.
    destruct (Connect_effect (c_ctx c) (c_name c) (world s)) as (_ & _ & _ & Hkeep & _).
    destruct (Connect_result_shape (c_ctx c) (c_name c) (world s)) as [Hsome Hnone].
    cbv zeta in Hkeep. split.
    + intros name pool Hn. apply Hkeep, Hgrow, Hn.
    + apply Forall_insert.
      * eapply Forall_impl; [exact Hres |]. intros x [Hx1 Hx2]. split; [| exact Hx2].
        intros h e Hr. destruct (Hx1 h e Hr) as (He & Hh & Hp).
        split; [exact He |]. split; [exact Hh |]. apply Hkeep, Hp.
      * unfold result; cbn [c_pc setPc c_name]. split.
        -- intros h e [= Hr]. apply Hsome, Hr.
        -- intros e [= Hr]. apply Hnone, Hr.
Qed.

Lemma map_request_insert (l : list Caller) i c pc :
  l !! i = Some c ->
  map (fun x => (c_ctx x, c_name x)) (<[i := setPc pc c]> l)
  = map (fun x => (c_ctx x, c_name x)) l.
Proof.
  revert i. induction l as [| z l IH]; intros [| i] Hi; simpl in *; try discriminate.
  - injection Hi as ->. reflexivity.
  - f_equal. apply IH, Hi.
Qed.

Lemma requests_step i s s' :
  stepCaller i s = Some s' ->
  map (fun x => (c_ctx x, c_name x)) (callers s')
  = map (fun x => (c_ctx x, c_name x)) (callers s).
Proof.
  intros Hstep. apply stepCaller_cases in Hstep as (c & Hi & Hcase).
  destruct Hcase as [(Hpc & Hw & ->) | [(Hpc & ->) | [(Hpc & Hw & Hz & ->) | (Hpc & ->)]]];
    cbn [callers]; apply map_request_insert, Hi.
Qed.

Lemma run_any_names w0 sched :
  forall s0 s,
    run sched s0 = Some s ->
    lockOK s0 -> handlesInv w0 s0 ->
    lockOK s /\ handlesInv w0 s /\
    map (fun x => (c_ctx x, c_name x)) (callers s)
    = map (fun x => (c_ctx x, c_name x)) (callers s0) /\
    length sched + total (fun c => remaining (c_pc c)) (callers s)
      <= total (fun c => remaining (c_pc c)) (callers s0).
Proof.
  induction sched as [| i sched IH]; intros s0 s Hrun Hlock Hinv.
  { injection Hrun as <-. split; [exact Hlock | split; [exact Hinv | split; [reflexivity |]]].
    simpl. lia. }
  simpl in Hrun. destruct (stepCaller i s0) as [s1 |] eqn:Hstep; [| discriminate].
  destruct (IH s1 s Hrun (lockOK_step _ _ _ Hlock Hstep) (handlesInv_step _ _ _ _ Hinv Hstep))
    as (Hl & Hh & Hreq & Hwork).
  pose proof (work_step _ _ _ Hstep) as Hlt.
  split; [exact Hl | split; [exact Hh | split]].
  - rewrite Hreq. exact (requests_step _ _ _ Hstep).
  - simpl. lia.
Qed.

Lemma total_cons f (c : Caller) l : total f (c :: l) = f c + total f l.
Proof. reflexivity. Qed.

Lemma totals_at_start (l : list Caller) :
  Forall (fun c => c_pc c = PcStart) l ->
  total holdsRead l = 0 /\ total holdsWrite l = 0 /\
  total (fun c => remaining (c_pc c)) l = 4 * length l.
Proof.
  induction 1 as [| c l Hc _ (IH1 & IH2 & IH3)]; [repeat split |].
  rewrite !total_cons, IH1, IH2, IH3. unfold holdsRead, holdsWrite.
  rewrite Hc. cbn [remaining length]. lia.
Qed.

Lemma totals_at_end (l : list Caller) :
  Forall (fun c => is_Some (result c)) l ->
  total holdsRead l = 0 /\ total holdsWrite l = 0.
Proof.
  induction 1 as [| c l [r Hc] _ (IH1 & IH2)]; [split; reflexivity |].
  rewrite !total_cons, IH1, IH2.
  unfold holdsRead, holdsWrite, result in *. destruct (c_pc c); try discriminate. auto.
Qed.

(** X13. Goroutines calling [Connect] concurrently, each for a name of its
    own choice, from any state of the provider and under any schedule.
    Every run is finite and can stop only when all calls have returned, and
    then nobody holds the mutex.  The map only gains entries.  A call
    returns either a handle without error or an error without handle; a
    handle is bound to the pool registered under the name asked for, so two
    calls for the same name that both return a handle return the same
    handle. *)
Theorem concurrent_Connect_any_names w0 reqs sched s :
  run sched (initSystemOf w0 reqs) = Some s ->
  length sched <= 4 * length reqs /\
  (blocked s -> allReturned s /\ readers s = 0 /\ writer s = false) /\
  map (fun c => (c_ctx c, c_name c)) (callers s) = reqs /\
  (forall name pool, pools (prov w0) !! name = Some pool ->
     pools (prov (world s)) !! name = Some pool) /\
  (forall c h e, In c (callers s) -> result c = Some (Some h, e) ->
     e = None /\ h = trackedConn (Pool h) (c_name c) /\
     pools (prov (world s)) !! c_name c = Some (Pool h)) /\
  (forall c e, In c (callers s) -> result c = Some (None, e) -> e <> None) /\
  (forall c1 c2 h1 h2 e1 e2,
     In c1 (callers s) -> In c2 (callers s) ->
     result c1 = Some (Some h1, e1) -> result c2 = Some (Some h2, e2) ->
     c_name c1 = c_name c2 -> h1 = h2).
Proof.
  intros Hrun.
  assert (Hstart : Forall (fun c : Caller => c_pc c = PcStart) (callers (initSystemOf w0 reqs))).
  { apply Forall_forall. intros c Hc. unfold initSystemOf in Hc. cbn [callers] in Hc.
    apply list_elem_of_In, in_map_iff in Hc as (r & <- & _). reflexivity. }
  destruct (totals_at_start _ Hstart) as (T1 & T2 & T3).
  assert (Hlock0 : lockOK (initSystemOf w0 reqs)).
  { unfold lockOK. rewrite T1, T2. cbn [readers writer initSystemOf].
    split; [reflexivity | split; [reflexivity | discriminate]]. }
  assert (Hinv0 : handlesInv w0 (initSystemOf w0 reqs)).
  { split; [auto |]. eapply Forall_impl; [exact Hstart |].
    intros c Hc. unfold result. rewrite Hc. split; [intros h e | intros e]; discriminate. }
  destruct (run_any_names w0 sched _ _ Hrun Hlock0 Hinv0) as (Hl & (Hgrow & Hres) & Hreq & Hwork).
  rewrite T3 in Hwork. cbn [callers initSystemOf] in Hwork. rewrite length_map in Hwork.
  rewrite Forall_forall in Hres.
  split; [lia |]. split.
  { intros Hb. pose proof (lockOK_progress s Hl Hb) as Hret.
    split; [exact Hret |].
    destruct (totals_at_end _ Hret) as [E1 E2].
    destruct Hl as (Hrd & Hwr & _). rewrite E1 in Hrd. rewrite E2 in Hwr.
    split; [exact Hrd |]. destruct (writer s); [discriminate | reflexivity]. }
  split.
  { rewrite Hreq. unfold initSystemOf. cbn [callers]. rewrite map_map. cbn [c_ctx c_name].
    clear. induction reqs as [| [ctx n] reqs IH]; [reflexivity |].
    cbn [map fst snd]. f_equal. exact IH. }
  split; [exact Hgrow |]. split.
  { intros c h e Hin Hr. apply (Hres c (proj2 (list_elem_of_In _ _) Hin)), Hr. }
  split.
  { intros c e Hin Hr. apply (Hres c (proj2 (list_elem_of_In _ _) Hin)), Hr. }
  intros c1 c2 h1 h2 e1 e2 Hin1 Hin2 Hr1 Hr2 Hname.
  destruct (proj1 (Hres c1 (proj2 (list_elem_of_In _ _) Hin1)) h1 e1 Hr1) as (_ & Hh1 & Hp1).
  destruct (proj1 (Hres c2 (proj2 (list_elem_of_In _ _) Hin2)) h2 e2 Hr2) as (_ & Hh2 & Hp2).
  rewrite Hname in Hp1, Hh1. rewrite Hp2 in Hp1. injection Hp1 as Hp.
  rewrite Hh1, Hh2, Hp. reflexivity.
Qed.

End AnyNames.

Section Orders.
Context {DT : DriverTypes} {E : Environment}.

Local Open Scope nat_scope.

(** ** Closing a handle and closing the provider, in either order *)

Lemma closePoolObj_twice (o : PoolObj) : closePoolObj (closePoolObj o) = closePoolObj o.
Proof. reflexivity. Qed.

Lemma closeAll_lookup_cases l w pool :
  heap (closeAll l w) !! pool
  = if in_dec Nat.eq_dec pool (map snd l)
    then closePoolObj <$> heap w !! pool
    else heap w !! pool.
Proof.
  destruct (in_dec Nat.eq_dec pool (map snd l)) as [Hin | Hnot].
  - destruct (heap w !! pool) as [o |] eqn:Ho.
    + apply closeAll_lookup_closed; assumption.
    + simpl. apply lookup_ge_None. apply lookup_ge_None in Ho.
      destruct (closeAll_frame l w) as (_ & _ & Hl & _). lia.
  - apply closeAll_lookup_other, Hnot.
Qed.

(** X14. For a handle whose pool is the one registered under its name,
    closing the handle and then the provider, or the provider and then the
    handle, ends in the same place: an empty map, the same pool objects (the
    handle's pool and every registered pool closed, the others untouched),
    the same outside world, and no error. *)
Theorem handle_and_provider_Close_commute w c :
  provider c = Some thisProvider ->
  pools (prov w) !! dbName c = Some (Pool c) ->
  let handleFirst := ConnectionProvider_Close (snd (DatabaseConnection_Close c w)) in
  let providerFirst := snd (DatabaseConnection_Close c (ConnectionProvider_Close w)) in
  fst (DatabaseConnection_Close c w) = None /\
  fst (DatabaseConnection_Close c (ConnectionProvider_Close w)) = None /\
  pools (prov handleFirst) = ∅ /\ pools (prov providerFirst) = ∅ /\
  heap handleFirst = heap providerFirst /\
  env handleFirst = env providerFirst.
Proof.
  intros Htr Hreg handleFirst providerFirst. subst handleFirst providerFirst.
  rewrite !(DatabaseConnection_Close_tracked c _ Htr). cbn [fst snd].
  split; [reflexivity |]. split; [reflexivity |].
  split; [apply ConnectionProvider_Close_frame |].
  destruct (ConnectionProvider_Close_frame w) as (Hp & _ & _ & He & _ & _).
  split; [cbn [prov setPools pools]; rewrite Hp; apply delete_empty |].
  split.
  - unfold ConnectionProvider_Close. cbn [heap setPools PoolClose env prov pools].
    apply list_eq. intros pool.
    rewrite closeAll_lookup_cases. cbn [heap setPools PoolClose].
    destruct (decide (Pool c = pool)) as [<- | Hne].
    + rewrite !list_lookup_alter_eq, closeAll_lookup_cases.
      destruct (heap w !! Pool c) as [o |]; repeat case_match; reflexivity.
    + rewrite !list_lookup_alter_ne by exact Hne. rewrite closeAll_lookup_cases.
      repeat case_match; try reflexivity;
        repeat match goal with Hd : in_dec _ _ _ = _ |- _ => clear Hd end.
      * exfalso. match goal with Hn : ~ In pool _ |- _ => apply Hn end.
        match goal with Hi : In pool _ |- _ =>
          apply in_map_iff in Hi as ([nm p] & Hp' & Hnp) end.
        simpl in Hp'. subst p. apply rangeOrder_elem in Hnp.
        apply lookup_delete_Some in Hnp as [_ Hnp].
        apply in_map_iff. exists (nm, pool). split; [reflexivity |].
        apply rangeOrder_elem, Hnp.
      * exfalso. match goal with Hn : ~ In pool _ |- _ => apply Hn end.
        match goal with Hi : In pool _ |- _ =>
          apply in_map_iff in Hi as ([nm p] & Hp' & Hnp) end.
        simpl in Hp'. subst p. apply rangeOrder_elem in Hnp.
        apply in_map_iff. exists (nm, pool). split; [reflexivity |].
        apply rangeOrder_elem. apply lookup_delete_Some. split; [| exact Hnp].
        intros <-. rewrite Hreg in Hnp. congruence.
  - destruct (ConnectionProvider_Close_frame
                (setPools (delete (dbName c) (pools (prov w))) (PoolClose (Pool c) w)))
      as (_ & _ & _ & He1 & _).
    rewrite He1. cbn [env setPools PoolClose]. symmetry. exact He.
Qed.

End Orders.

(** * The further properties on the concrete driver *)

Section MoreSamples.
#[local] Existing Instance sampleTypes.
#[local] Existing Instance sampleEnv.

Local Open Scope nat_scope.

Lemma Connect_never_retries_witness :
  pools (prov (sampleWorld sampleConnString [])) !! "postgres" = None /\
  trace (snd (Connect ctxExpiring "postgres" (sampleWorld sampleConnString [])))
  = [EvPoolClose 0%nat; EvPing ctxExpiring 0%nat;
     EvConnectConfig ctxExpiring
       (@mkConfig sampleTypes 4%Z 0%Z 0%Z 0%Z None (Some "postgres://localhost/postgres"));
     EvParseConfig "postgres://localhost/postgres"; EvConnectionString "postgres"] /\
  trace (snd (Connect ctxBackground "postgres" (sampleWorld sampleConnString [])))
  = [EvPing ctxBackground 0%nat;
     EvConnectConfig ctxBackground
       (@mkConfig sampleTypes 4%Z 0%Z 0%Z 0%Z None (Some "postgres://localhost/postgres"));
     EvParseConfig "postgres://localhost/postgres"; EvConnectionString "postgres"].
Proof.
  assert (Habs : pools (prov (sampleWorld sampleConnString [])) !! "postgres" = None)
    by (vm_compute; reflexivity).
  pose proof (proj2 (Connect_never_retries ctxExpiring "postgres"
                       (sampleWorld sampleConnString [])) Habs) as Hexpiring.
  pose proof (proj2 (Connect_never_retries ctxBackground "postgres"
                       (sampleWorld sampleConnString [])) Habs) as Hbackground.
  cbv zeta in Hexpiring, Hbackground.
  destruct Hexpiring as (_ & _ & _ & Hfail & _).
  destruct Hbackground as (_ & _ & _ & _ & Hok).
  split; [exact Habs |]. split.
  - rewrite (Hfail (@mkConfig sampleTypes 4%Z 0%Z 3600%Z 1800%Z None
                              (Some "postgres://localhost/postgres")) 1%nat
               (@mkConfig sampleTypes 4%Z 0%Z 0%Z 0%Z None
                          (Some "postgres://localhost/postgres")) 2%nat
               (errorString "context deadline exceeded") 3%nat);
      vm_compute; reflexivity.
  - rewrite (Hok (@mkConfig sampleTypes 4%Z 0%Z 3600%Z 1800%Z None
                            (Some "postgres://localhost/postgres")) 1%nat
               (@mkConfig sampleTypes 4%Z 0%Z 0%Z 0%Z None
                          (Some "postgres://localhost/postgres")) 2%nat 3%nat);
      vm_compute; reflexivity.
Defined.

Lemma reachable_registry_sound_witness :
  Reachable sampleConnected [sampleConn] /\
  Pool sampleConn < length (heap sampleConnected).
Proof.
  split; [exact sampleConnected_reachable |].
  exact (proj1 (proj2 (proj2 (proj2 (reachable_registry_sound sampleConnected [sampleConn]
                                       sampleConnected_reachable))
                               sampleConn (or_introl eq_refl)))).
Defined.

Lemma sampleConnect_eq :
  Connect ctxBackground "postgres" (sampleWorld sampleConnString [])
  = ((Some sampleConn, None), sampleConnected).
Proof. vm_compute. reflexivity. Defined.

Lemma Connect_returns_open_pool_witness :
  Reachable (sampleWorld sampleConnString []) [] /\
  Connect ctxBackground "postgres" (sampleWorld sampleConnString [])
  = ((Some sampleConn, None), sampleConnected) /\
  pools (prov sampleConnected) !! "postgres" = Some (Pool sampleConn).
Proof.
  assert (Hr : Reachable (sampleWorld sampleConnString []) [])
    by exact (reach_new sampleConnString [] [] 0).
  split; [exact Hr |]. split; [exact sampleConnect_eq |].
  exact (proj1 (proj2 (proj2 (Connect_returns_open_pool (sampleWorld sampleConnString []) []
                                ctxBackground "postgres" sampleConn sampleConnected
                                Hr sampleConnect_eq)))).
Defined.

Lemma handles_share_one_pool_witness :
  Reachable (sampleWorld sampleConnString []) [] /\
  Connect ctxBackground "postgres" (sampleWorld sampleConnString [])
  = ((Some sampleConn, None), sampleConnected) /\
  Connect ctxExpiring "postgres" sampleConnected
  = ((Some sampleConn, None), sampleConnected) /\
  pools (prov (snd (DatabaseConnection_Close sampleConn sampleConnected))) !! "postgres"
  = None.
Proof.
  assert (Hr : Reachable (sampleWorld sampleConnString []) [])
    by exact (reach_new sampleConnString [] [] 0).
  assert (H2 : Connect ctxExpiring "postgres" sampleConnected
               = ((Some sampleConn, None), sampleConnected))
    by (vm_compute; reflexivity).
  split; [exact Hr |]. split; [exact sampleConnect_eq |]. split; [exact H2 |].
  pose proof (handles_share_one_pool (sampleWorld sampleConnString []) [] ctxBackground
                ctxExpiring "postgres" sampleConn sampleConn sampleConnected sampleConnected
                Hr sampleConnect_eq H2) as Hshare.
  cbv zeta in Hshare.
  exact (proj1 (proj2 (proj2 (proj2 (proj2 Hshare))))).
Defined.

Lemma untracked_Close_leaves_closed_pool_registered_witness :
  provider sampleUntracked = None /\
  pools (prov sampleConnected) !! "postgres" = Some (Pool sampleUntracked) /\
  heap sampleConnected !! Pool sampleUntracked
  = Some (mkPool (mkConfig 4 0 0 0 None (Some "postgres://localhost/postgres")) false) /\
  fst (Connect ctxCancelled "postgres"
         (snd (DatabaseConnection_Close sampleUntracked sampleConnected)))
  = (Some sampleConn, None).
Proof.
  assert (Hreg : pools (prov sampleConnected) !! "postgres" = Some (Pool sampleUntracked))
    by (vm_compute; reflexivity).
  assert (Ho : heap sampleConnected !! Pool sampleUntracked
               = Some (mkPool (mkConfig 4 0 0 0 None (Some "postgres://localhost/postgres"))
                              false))
    by (vm_compute; reflexivity).
  split; [reflexivity |]. split; [exact Hreg |]. split; [exact Ho |].
  pose proof (untracked_Close_leaves_closed_pool_registered sampleConnected ctxCancelled
                "postgres" sampleUntracked _ eq_refl Hreg Ho) as Hleft.
  cbv zeta in Hleft.
  rewrite (proj2 (proj2 (proj2 Hleft))). reflexivity.
Defined.

Lemma pool_objects_persist_witness :
  heap sampleConnected !! 0
  = Some (mkPool (mkConfig 4 0 0 0 None (Some "postgres://localhost/postgres")) false) /\
  heap (snd (Connect ctxBackground "other" sampleConnected)) !! 0
  = Some (mkPool (mkConfig 4 0 0 0 None (Some "postgres://localhost/postgres")) false).
Proof.
  assert (Ho : heap sampleConnected !! 0
               = Some (mkPool (mkConfig 4 0 0 0 None (Some "postgres://localhost/postgres"))
                              false))
    by (vm_compute; reflexivity).
  split; [exact Ho |].
  exact (proj1 (pool_objects_persist sampleConnected 0 _ Ho) ctxBackground "other").
Defined.

Lemma Connect_after_provider_Close_witness :
  Reachable sampleConnected [sampleConn] /\
  pools (prov (ConnectionProvider_Close sampleConnected)) !! "postgres" = None.
Proof.
  split; [exact sampleConnected_reachable |].
  pose proof (Connect_after_provider_Close sampleConnected [sampleConn] ctxBackground
                "postgres" sampleConnected_reachable) as Hafter.
  cbv zeta in Hafter. exact (proj1 Hafter).
Defined.

Lemma orphaned_pool_survives_provider_Close_witness :
  Reachable sampleConnected [sampleConn] /\ In sampleConn [sampleConn] /\
  Connect ctxBackground (dbName sampleConn)
          (snd (DatabaseConnection_Close sampleConn sampleConnected))
  = ((Some (trackedConn 1 "postgres"), None), sampleReconnected) /\
  pools (prov (ConnectionProvider_Close
                 (snd (DatabaseConnection_Close sampleConn sampleReconnected)))) = ∅.
Proof.
  assert (HC : Connect ctxBackground (dbName sampleConn)
                 (snd (DatabaseConnection_Close sampleConn sampleConnected))
               = ((Some (trackedConn 1 "postgres"), None), sampleReconnected))
    by (vm_compute; reflexivity).
  split; [exact sampleConnected_reachable |].
  split; [left; reflexivity |]. split; [exact HC |].
  pose proof (orphaned_pool_survives_provider_Close sampleConnected [sampleConn] sampleConn
                ctxBackground _ _ sampleConnected_reachable (or_introl eq_refl) HC) as Horph.
  cbv zeta in Horph. exact (proj1 Horph).
Defined.

Lemma fresh_provider_pool_settings_witness :
  Connect ctxBackground "postgres"
          (sampleWorld sampleConnString [CallWithMaxConns 5%Z; CallWithMinConns 2%Z])
  = ((Some sampleConn, None),
     snd (Connect ctxBackground "postgres"
            (sampleWorld sampleConnString [CallWithMaxConns 5%Z; CallWithMinConns 2%Z]))) /\
  exists config,
    heap (snd (Connect ctxBackground "postgres"
                 (sampleWorld sampleConnString [CallWithMaxConns 5%Z; CallWithMinConns 2%Z])))
      !! 0 = Some (mkPool config false) /\
    MaxConns config = 5%Z /\ MinConns config = 2%Z /\ MaxConnLifetime config = 0%Z.
Proof.
  assert (HC : Connect ctxBackground "postgres"
                 (sampleWorld sampleConnString [CallWithMaxConns 5%Z; CallWithMinConns 2%Z])
               = ((Some sampleConn, None),
                  snd (Connect ctxBackground "postgres"
                         (sampleWorld sampleConnString
                            [CallWithMaxConns 5%Z; CallWithMinConns 2%Z]))))
    by (vm_compute; reflexivity).
  split; [exact HC |].
  destruct (fresh_provider_pool_settings (DT := sampleTypes) (E := sampleEnv)
              sampleConnString
              [CallWithMaxConns 5%Z; CallWithMinConns 2%Z] [] 0 [] ctxBackground "postgres"
              sampleConn _ HC)
    as (parsed & ds1 & config & _ & Hheap & Hmin & Hlife & _ & _ & Hmax & _).
  exists config. split; [exact Hheap |].
  split; [exact Hmax |]. split; [exact Hmin | exact Hlife].
Defined.

Lemma concurrent_Connect_any_names_witness :
  run mixedSchedule sampleMixedRace = Some sampleMixedEnd /\
  length mixedSchedule <= 4 * length sampleRequests /\
  map (fun c => (c_ctx c, c_name c)) (callers sampleMixedEnd) = sampleRequests.
Proof.
  assert (Hrun : run mixedSchedule sampleMixedRace = Some sampleMixedEnd)
    by (vm_compute; reflexivity).
  split; [exact Hrun |].
  destruct (concurrent_Connect_any_names (sampleWorld sampleConnString []) sampleRequests
              mixedSchedule sampleMixedEnd Hrun) as (Hlen & _ & Hreq & _).
  split; [exact Hlen | exact Hreq].
Defined.

Lemma handle_and_provider_Close_commute_witness :
  provider sampleConn = Some thisProvider /\
  pools (prov sampleConnected) !! dbName sampleConn = Some (Pool sampleConn) /\
  heap (ConnectionProvider_Close (snd (DatabaseConnection_Close sampleConn sampleConnected)))
  = heap (snd (DatabaseConnection_Close sampleConn (ConnectionProvider_Close sampleConnected))).
Proof.
  assert (Hreg : pools (prov sampleConnected) !! dbName sampleConn = Some (Pool sampleConn))
    by (vm_compute; reflexivity).
  split; [reflexivity |]. split; [exact Hreg |].
  pose proof (handle_and_provider_Close_commute sampleConnected sampleConn eq_refl Hreg)
    as Hcomm.
  cbv zeta in Hcomm. exact (proj1 (proj2 (proj2 (proj2 (proj2 Hcomm))))).
Defined.

End MoreSamples.
